(** * Vision matching and state navigation: a shallow embedding

    The development follows the Python sources
      - [src/core/state/manager.py]   (GameState, StateTransition, StateManager)
      - [src/core/vision/template.py] (MatchMethod, TemplateMatch, TemplateMatcher)
      - [src/core/state/detection.py] (StateDetector)
      - [src/core/vision/capture.py]  (the statistics of ScreenCapture)
      - [src/core/input/controller.py] (InputController)
      - [src/main.py]                 (NikkeAutomation)

    Conventions.
      - Scores, confidences, thresholds and capture times are Python
        [float]s, that is IEEE 754 doubles: they are primitive floats, [+],
        [-], [/] and [<] are the rounded double operations, and NaN compares
        false with everything.
      - The durations and timestamps of the state manager, the input
        controller and the executor are data that code stores and hands to
        [time.sleep], which refuses a negative one, and never computes with:
        they are rationals [Q].
      - A Python [dict] whose iteration order is observable is an insertion
        ordered association list ([Dict]); assigning to a present key keeps
        the key's position, assigning to a fresh key appends.
      - A Python [set] is a [gset]; the template store, whose order no claim
        observes, is a [gmap]. *)

From Stdlib Require Import QArith Floats.
From stdpp Require Import strings base decidable option list gmap finite sorting.

Local Open Scope string_scope.
Local Open Scope list_scope.
Local Open Scope nat_scope.

#[local] Set Warnings "-clear-no-such-hyp".
#[local] Set Warnings "-inexact-float".

(** ** Insertion ordered dictionaries *)

Module Dict.
Section dict.
Context {K V : Type} `{EqDecision K}.

(** [d[k] = v] *)
Fixpoint set (k : K) (v : V) (d : list (K * V)) : list (K * V) :=
  match d with
  | [] => [(k, v)]
  | (k', v') :: r =>
      if decide (k = k') then (k', v) :: r else (k', v') :: set k v r
  end.

(** [d.get(k)] *)
Fixpoint get (k : K) (d : list (K * V)) : option V :=
  match d with
  | [] => None
  | (k', v') :: r => if decide (k = k') then Some v' else get k r
  end.

Definition keys (d : list (K * V)) : list K := d.*1.

(** The representation invariant of a dictionary: keys are unique. *)
Definition wf (d : list (K * V)) : Prop := NoDup (keys d).
End dict.
End Dict.

(** ** [manager.py]: states, transitions, the state manager *)

Inductive GameState : Type :=
  | UNKNOWN | HOME_SCREEN | BATTLE | SHOP | INVENTORY
  | MAIL | LOADING | LOGIN | ERROR | POPUP.

#[global] Instance GameState_eq_dec : EqDecision GameState.
Proof. solve_decision. Defined.

Definition GameState_enum : list GameState :=
  [UNKNOWN; HOME_SCREEN; BATTLE; SHOP; INVENTORY; MAIL; LOADING; LOGIN; ERROR; POPUP].

#[global, refine] Instance GameState_finite : Finite GameState :=
  {| enum := GameState_enum |}.
Proof.
  - unfold GameState_enum. apply NoDup_ListNoDup.
    repeat (constructor; [simpl; intuition discriminate|]). constructor.
  - intros []; apply list_elem_of_In; simpl; tauto.
Defined.

Record StateTransition : Type := mkStateTransition {
  from_state : GameState;
  to_state : GameState;
  action_sequence : list string;
  expected_duration : Q;
}.

Record StateManager : Type := mkStateManager {
  current_state : GameState;
  previous_state : option GameState;
  state_history : list (GameState * Q);
  transitions : list ((GameState * GameState) * StateTransition);
  stable_state_time : Q;
}.

(** [StateManager.register_transition] *)
Definition register_transition (sm : StateManager)
    (from_s to_s : GameState) (actions : list string) (duration : Q)
  : StateManager :=
  let transition := mkStateTransition from_s to_s actions duration in
  {| current_state := current_state sm;
     previous_state := previous_state sm;
     state_history := state_history sm;
     transitions := Dict.set (from_s, to_s) transition (transitions sm);
     stable_state_time := stable_state_time sm |}.

(** [StateManager._register_default_transitions] *)
Definition _register_default_transitions (sm : StateManager) : StateManager :=
  let sm := register_transition sm HOME_SCREEN SHOP
              ["click_template:home/shop_icon"] 2%Q in
  let sm := register_transition sm SHOP HOME_SCREEN
              ["click_template:common/return_home"] (3 # 2)%Q in
  let sm := register_transition sm POPUP UNKNOWN
              ["click_template:common/close_button";
               "click_template:common/confirm_button";
               "click_template:common/empty_area"] 1%Q in
  let sm := register_transition sm ERROR HOME_SCREEN
              ["click_template:common/confirm_button"; "wait:2.0"] 3%Q in
  register_transition sm UNKNOWN HOME_SCREEN
    ["click_template:common/return_home"; "wait:1.0";
     "click_template:common/close_button"; "wait:0.5";
     "click_template:common/confirm_button"; "wait:0.5"] 3%Q.

(** [StateManager.__init__] *)
Definition StateManager_init : StateManager :=
  _register_default_transitions
    {| current_state := UNKNOWN;
       previous_state := None;
       state_history := [];
       transitions := [];
       stable_state_time := 0%Q |}.

(** [StateManager.update_state]; [current_time] is the value read from
    [time.time()] on the changing branch. *)
Definition update_state (sm : StateManager) (new_state : GameState)
    (current_time : Q) : bool * StateManager :=
  if decide (new_state = current_state sm) then (false, sm)
  else
    (true,
     {| current_state := new_state;
        previous_state := Some (current_state sm);
        state_history := state_history sm ++ [(new_state, current_time)];
        transitions := transitions sm;
        stable_state_time := current_time |}).

Definition get_current_state (sm : StateManager) : GameState := current_state sm.

(** *** [StateManager.find_path] *)

Definition Path := list StateTransition.

Inductive scan_result : Type :=
  | Found (new_path : Path)
  | Continue (visited : gset GameState) (queue : list (GameState * Path)).

(** The inner [for (from_s, to_s), transition in self.transitions.items()]
    loop, for the queue entry [(state, path)] just popped. *)
Fixpoint scan (items : list ((GameState * GameState) * StateTransition))
    (state : GameState) (path : Path) (target : GameState)
    (visited : gset GameState) (queue : list (GameState * Path)) : scan_result :=
  match items with
  | [] => Continue visited queue
  | ((from_s, to_s), transition) :: rest =>
      if decide (from_s = state ∧ to_s ∉ visited) then
        let new_path := path ++ [transition] in
        if decide (to_s = target) then Found new_path
        else scan rest state path target ({[to_s]} ∪ visited)
                  (queue ++ [(to_s, new_path)])
      else scan rest state path target visited queue
  end.

(** The outer [while queue] loop.  [None] means the fuel ran out; [Some r]
    means the loop ended with the Python return value [r]. *)
Fixpoint bfs (fuel : nat) (items : list ((GameState * GameState) * StateTransition))
    (target : GameState) (queue : list (GameState * Path))
    (visited : gset GameState) : option (option Path) :=
  match fuel with
  | O => None
  | S fuel' =>
      match queue with
      | [] => Some None
      | (state, path) :: rest =>
          match scan items state path target visited rest with
          | Found new_path => Some (Some new_path)
          | Continue visited' queue' => bfs fuel' items target queue' visited'
          end
      end
  end.

(** One iteration per state that can ever be queued, plus the final test. *)
Definition bfs_fuel : nat := S (card GameState).

Definition find_path_loop (sm : StateManager) (target_state : GameState)
  : option (option Path) :=
  if decide (current_state sm = target_state) then Some (Some [])
  else bfs bfs_fuel (transitions sm) target_state
           [(current_state sm, [])] {[current_state sm]}.

Definition find_path (sm : StateManager) (target_state : GameState) : option Path :=
  match find_path_loop sm target_state with
  | Some r => r
  | None => None
  end.

(** [StateManager.can_transition_to] *)
Definition can_transition_to (sm : StateManager) (target_state : GameState) : bool :=
  match find_path sm target_state with Some _ => true | None => false end.

(** [StateManager.get_reachable_states] *)
Definition get_reachable_states (sm : StateManager) : gset GameState :=
  foldl (fun reachable '(from_s, to_s) =>
           if decide (from_s = current_state sm) then {[to_s]} ∪ reachable
           else reachable)
        {[current_state sm]} (Dict.keys (transitions sm)).

(** ** Return values and exceptions *)

(** A Python call either returns a value or raises. *)
Inductive outcome (A : Type) : Type :=
  | Return (a : A)
  | Raise.
Arguments Return {A} a.
Arguments Raise {A}.

(** Strict comparison of two rationals, [x < y]. *)
Definition Qltb (x y : Q) : bool :=
  (Qnum x * Z.pos (Qden y) <? Qnum y * Z.pos (Qden x))%Z.

(** [float(n)] for a non-negative [int], as in [x / n]; the conversion is
    exact below [2^53] (the counts converted here are lengths of lists). *)
Definition float_of_nat (n : nat) : float :=
  PrimFloat.of_uint63 (Uint63.of_Z (Z.of_nat n)).

(** ** [template.py]: the template store and the matcher *)

Inductive MatchMethod : Type := EXACT | SQDIFF | CCORR.

#[global] Instance MatchMethod_eq_dec : EqDecision MatchMethod.
Proof. solve_decision. Defined.

Record TemplateMatch : Type := mkTemplateMatch {
  top_left : Z * Z;
  bottom_right : Z * Z;
  confidence : float;
  template_name : string;
  method : MatchMethod;
}.

(** [TemplateMatch.center], [width], [height] *)
Definition center (m : TemplateMatch) : Z * Z :=
  (((top_left m).1 + (bottom_right m).1) / 2,
   ((top_left m).2 + (bottom_right m).2) / 2)%Z.

Definition width (m : TemplateMatch) : Z := ((bottom_right m).1 - (top_left m).1)%Z.

Definition height (m : TemplateMatch) : Z := ((bottom_right m).2 - (top_left m).2)%Z.

(** A two-dimensional numpy array: [shape = (rows, cols)] and the cell at
    [row, col]. *)
Record ndarray (A : Type) : Type := mkArray {
  shape : nat * nat;
  item : nat → nat → A;
}.
Arguments mkArray {A} shape item.
Arguments shape {A} _.
Arguments item {A} _ _ _.

(** A colour frame or template: one BGR triple per pixel. *)
Abbreviation Image := (ndarray (Z * Z * Z)).

(** The score surface [cv2.matchTemplate] produces: an array of scores,
    which are numbers (none is NaN).  Its [float32] cells reach Python as
    doubles of the same value. *)
Record Surface : Type := mkSurface {
  scores :> ndarray float;
  scores_numbers : ∀ y x, PrimFloat.is_nan (item scores y x) = false;
}.

Record TemplateMatcher : Type := mkTemplateMatcher {
  templates : gmap string Image;
}.

(** Cell coordinates [(x, y)] of a [rows × cols] array in scan order. *)
Definition coords (rows cols : nat) : list (nat * nat) :=
  y ← seq 0 rows; x ← seq 0 cols; [(x, y)].

(** One step of the scan of [cv2.minMaxLoc]: a strictly smaller (larger)
    value replaces the minimum (maximum), so the first extremum is kept. *)
Definition minMax_step (a : Surface) (acc : float * float * (nat * nat) * (nat * nat))
    (c : nat * nat) : float * float * (nat * nat) * (nat * nat) :=
  let '(min_val, max_val, min_loc, max_loc) := acc in
  let v := item a c.2 c.1 in
  (if (v <? min_val)%float then v else min_val,
   if (max_val <? v)%float then v else max_val,
   if (v <? min_val)%float then c else min_loc,
   if (max_val <? v)%float then c else max_loc).

(** [cv2.minMaxLoc]; an empty array is an error. *)
Definition minMaxLoc (a : Surface)
  : option (float * float * (nat * nat) * (nat * nat)) :=
  match coords (shape a).1 (shape a).2 with
  | [] => None
  | c :: rest =>
      let v := item a c.2 c.1 in
      Some (foldl (minMax_step a) (v, v, c, c) rest)
  end.

(** [cv2.rectangle(a, pt1, pt2, color, -1)]: every cell of the array inside
    the rectangle with corners [pt1], [pt2] (both included) gets [color]. *)
Definition rectangle {A} (a : ndarray A) (pt1 pt2 : Z * Z) (color : A) : ndarray A :=
  {| shape := shape a;
     item := fun y x =>
       if bool_decide ((pt1.1 ≤ Z.of_nat x ≤ pt2.1)%Z ∧ (pt1.2 ≤ Z.of_nat y ≤ pt2.2)%Z)
       then color else item a y x |}.

(** [cv2.rectangle(result, pt1, pt2, 0, -1)] on a score surface: the cells
    written hold the number [0], so the array still is a surface. *)
Definition rectangle_0 (result : Surface) (pt1 pt2 : Z * Z) : Surface :=
  {| scores := rectangle result pt1 pt2 0%float;
     scores_numbers := fun y x =>
       match bool_decide ((pt1.1 ≤ Z.of_nat x ≤ pt2.1)%Z ∧ (pt1.2 ≤ Z.of_nat y ≤ pt2.2)%Z)
         as b return PrimFloat.is_nan (if b then 0%float else item result y x) = false
       with
       | true => eq_refl
       | false => scores_numbers result y x
       end |}.

(** What [find_template] returns: a list with [multiple=True], an optional
    match otherwise. *)
Definition find_result (multiple : bool) : Type :=
  if multiple then list TemplateMatch else option TemplateMatch.

Definition no_result (multiple : bool) : find_result multiple :=
  match multiple with true => [] | false => None end.

Definition mask_size : Z := 5.

Section matcher.
(** [cv2.matchTemplate]; [None] stands for a [cv2.error]. *)
Variable matchTemplate : Image → Image → MatchMethod → option Surface.

(** The [while len(matches) < max_results] loop of the [multiple] branch;
    [n] is the number of iterations still allowed. *)
Fixpoint find_matches (n : nat) (result : Surface) (template : Image)
    (name : string) (method : MatchMethod) (threshold : float)
    (matches : list TemplateMatch) : outcome (list TemplateMatch) :=
  match n with
  | O => Return matches
  | S n' =>
      match minMaxLoc result with
      | None => Raise
      | Some (min_val, max_val, min_loc, max_loc) =>
          let invert_score := bool_decide (method = SQDIFF) in
          let score := if invert_score then (1 - min_val)%float else max_val in
          let loc := if invert_score then min_loc else max_loc in
          if (score <? threshold)%float then Return matches
          else
            let h := Z.of_nat (shape template).1 in
            let w := Z.of_nat (shape template).2 in
            let x := Z.of_nat loc.1 in
            let y := Z.of_nat loc.2 in
            let m := mkTemplateMatch (x, y) (x + w, y + h)%Z score name method in
            let result' :=
              rectangle_0 result
                (Z.max 0 (x - mask_size), Z.max 0 (y - mask_size))
                (Z.min (Z.of_nat (shape result).2) (x + w + mask_size),
                 Z.min (Z.of_nat (shape result).1) (y + h + mask_size)) in
            find_matches n' result' template name method threshold (matches ++ [m])
      end
  end.

(** The single-match branch. *)
Definition find_best (result : Surface) (template : Image)
    (name : string) (method : MatchMethod) (threshold : float)
  : outcome (option TemplateMatch) :=
  match minMaxLoc result with
  | None => Raise
  | Some (min_val, max_val, min_loc, max_loc) =>
      let invert_score := bool_decide (method = SQDIFF) in
      let score := if invert_score then (1 - min_val)%float else max_val in
      let loc := if invert_score then min_loc else max_loc in
      if (score <? threshold)%float then Return None
      else
        let h := Z.of_nat (shape template).1 in
        let w := Z.of_nat (shape template).2 in
        let x := Z.of_nat loc.1 in
        let y := Z.of_nat loc.2 in
        Return (Some (mkTemplateMatch (x, y) (x + w, y + h)%Z score name method))
  end.

(** [TemplateMatcher.find_template] *)
Definition find_template (self : TemplateMatcher) (image : Image)
    (name : string) (method : MatchMethod) (threshold : float)
    (multiple : bool) (max_results : Z) : outcome (find_result multiple) :=
  match templates self !! name with
  | None => Return (no_result multiple)
  | Some template =>
      if bool_decide ((shape image).1 < (shape template).1 ∨
                      (shape image).2 < (shape template).2)
      then Return (no_result multiple)
      else
        match matchTemplate image template method with
        | None => Raise
        | Some result =>
            match multiple as b return outcome (find_result b) with
            | true => find_matches (Z.to_nat max_results) result template
                        name method threshold []
            | false => find_best result template name method threshold
            end
        end
  end.

(** [findOne]: [find_template] with the defaults [multiple=False],
    [max_results=5]. *)
Definition find_one (self : TemplateMatcher) (image : Image) (name : string)
    (method : MatchMethod) (threshold : float) : outcome (option TemplateMatch) :=
  find_template self image name method threshold false 5.

(** [findMany]: [find_template] with [multiple=True]. *)
Definition find_many (self : TemplateMatcher) (image : Image) (name : string)
    (method : MatchMethod) (threshold : float) (max_results : Z)
  : outcome (list TemplateMatch) :=
  find_template self image name method threshold true max_results.
End matcher.

(** ** [detection.py]: the state detector *)

Record StateDefinition : Type := mkStateDefinition {
  required_templates : list string;
  confidence_threshold : float;
  match_all : bool;
}.

Record StateDetector : Type := mkStateDetector {
  template_matcher : TemplateMatcher;
  state_definitions : list (GameState * StateDefinition);
}.

(** The rules [StateDetector.__init__] installs, in source order. *)
Definition default_state_definitions : list (GameState * StateDefinition) :=
  [(HOME_SCREEN, mkStateDefinition ["home/menu_button"; "home/shop_button"] 0.8%float true);
   (BATTLE, mkStateDefinition ["battle/battle_ui"; "battle/back_button"] 0.7%float true);
   (SHOP, mkStateDefinition ["shop/shop_title"; "shop/purchase_button"] 0.75%float false);
   (LOADING, mkStateDefinition ["common/loading_indicator"] 0.6%float true);
   (ERROR, mkStateDefinition ["common/error_icon"; "common/error_message"] 0.7%float false)].

Definition StateDetector_init (tm : TemplateMatcher) : StateDetector :=
  {| template_matcher := tm; state_definitions := default_state_definitions |}.

(** [StateDetector.register_state_definition] *)
Definition register_state_definition (self : StateDetector) (state : GameState)
    (required : list string) (threshold : float) (all : bool) : StateDetector :=
  {| template_matcher := template_matcher self;
     state_definitions :=
       Dict.set state (mkStateDefinition required threshold all)
                (state_definitions self) |}.

(** [max(items, key=lambda x: x[1])] on a non-empty sequence [best :: l]:
    an item replaces the running maximum only when its key is strictly
    greater, so the first of several maxima wins. *)
Fixpoint max_by_confidence (best : GameState * float) (l : list (GameState * float))
  : GameState * float :=
  match l with
  | [] => best
  | x :: r => if (best.2 <? x.2)%float then max_by_confidence x r
              else max_by_confidence best r
  end.

Section detector.
Variable matchTemplate : Image → Image → MatchMethod → option Surface.

(** The [for template_name in required_templates] loop: the number of
    templates found and the sum of their confidences. *)
Fixpoint count_matches (tm : TemplateMatcher) (screen_image : Image)
    (threshold : float) (names : list string)
    (matched_templates : nat) (total_confidence : float) : outcome (nat * float) :=
  match names with
  | [] => Return (matched_templates, total_confidence)
  | template_name :: rest =>
      match find_template matchTemplate tm screen_image template_name
                          EXACT threshold false 5 with
      | Raise => Raise
      | Return (Some m) =>
          count_matches tm screen_image threshold rest
            (S matched_templates) (total_confidence + confidence m)%float
      | Return None =>
          count_matches tm screen_image threshold rest
            matched_templates total_confidence
      end
  end.

(** The verdict on one rule once its templates are counted: the entry to
    store in [state_confidence], if any. *)
Definition state_score (definition : StateDefinition)
    (matched_templates : nat) (total_confidence : float) : option float :=
  if 0 <? matched_templates then
    let avg_confidence := (total_confidence / float_of_nat matched_templates)%float in
    if (match_all definition
        && (matched_templates =? length (required_templates definition)))
       || (negb (match_all definition) && (0 <? matched_templates))
    then Some avg_confidence
    else None
  else None.

(** The [for state, definition in self.state_definitions.items()] loop. *)
Fixpoint score_states (tm : TemplateMatcher) (screen_image : Image)
    (defs : list (GameState * StateDefinition))
    (state_confidence : list (GameState * float))
  : outcome (list (GameState * float)) :=
  match defs with
  | [] => Return state_confidence
  | (state, definition) :: rest =>
      match count_matches tm screen_image (confidence_threshold definition)
                          (required_templates definition) 0 0%float with
      | Raise => Raise
      | Return (matched_templates, total_confidence) =>
          score_states tm screen_image rest
            (match state_score definition matched_templates total_confidence with
             | Some avg_confidence => Dict.set state avg_confidence state_confidence
             | None => state_confidence
             end)
      end
  end.

(** [StateDetector.detect_state] *)
Definition detect_state (self : StateDetector) (screen_image : Image)
  : outcome GameState :=
  match score_states (template_matcher self) screen_image
                     (state_definitions self) [] with
  | Raise => Raise
  | Return [] => Return UNKNOWN
  | Return (first :: others) => Return (max_by_confidence first others).1
  end.

(** [StateDetector.verify_state] *)
Definition verify_state (self : StateDetector) (expected_state : GameState)
    (screen_image : Image) : outcome bool :=
  match detect_state self screen_image with
  | Raise => Raise
  | Return detected_state => Return (bool_decide (detected_state = expected_state))
  end.
End detector.

(** ** [controller.py] and [main.py]: the input controller and the
    navigation executor

    The screen, the clock, the random generator and the input device are the
    world the executor acts on.  [events] records, in order, every mouse
    move, every click, every [time.sleep] and every record [main.py] logs at
    warning level or above; [clock] is the time [time.time()] reads, which
    the calls of [time.sleep] advance (the time any other call takes is not
    modelled); [drawn] counts the calls of [random.uniform].  The calls into
    [pyautogui] are recorded as events and taken to return. *)

Inductive LogLevel : Type := WARNING | ERROR_LEVEL.

Inductive Event : Type :=
  | MoveTo (x y : Z) (duration : Q)
  | Click (x y : Z)
  | Sleep (seconds : Q)
  | Log (level : LogLevel) (message : string).

Record World : Type := mkWorld {
  captured : nat;
  drawn : nat;
  clock : Q;
  events : list Event;
}.

Record InputController : Type := mkInputController {
  min_delay : Q;
  max_delay : Q;
  move_duration_range : Q * Q;
  last_action_time : Q;
}.

(** [InputController.__init__] with its default arguments. *)
Definition InputController_init : InputController :=
  {| min_delay := 5 # 100; max_delay := 2 # 10;
     move_duration_range := (1 # 10, 3 # 10); last_action_time := 0 |}.

Record NikkeAutomation : Type := mkNikkeAutomation {
  state_manager : StateManager;
  state_detector : StateDetector;
  input_controller : InputController;
  world : World;
}.

(** [str(state)] for an [Enum] member. *)
Definition GameState_str (s : GameState) : string :=
  "GameState." ++
  match s with
  | UNKNOWN => "UNKNOWN" | HOME_SCREEN => "HOME_SCREEN" | BATTLE => "BATTLE"
  | SHOP => "SHOP" | INVENTORY => "INVENTORY" | MAIL => "MAIL"
  | LOADING => "LOADING" | LOGIN => "LOGIN" | ERROR => "ERROR" | POPUP => "POPUP"
  end.

Module Main.

(** A method of [NikkeAutomation] or of one of its components: it may change
    the object and the world, and returns or raises. *)
Definition M (A : Type) : Type := NikkeAutomation → NikkeAutomation * outcome A.

Definition ret {A} (a : A) : M A := fun app => (app, Return a).

Definition raise {A} : M A := fun app => (app, Raise).

Definition bind {A B} (m : M A) (k : A → M B) : M B :=
  fun app =>
    match m app with
    | (app', Return a) => k a app'
    | (app', Raise) => (app', Raise)
    end.

(** [try: body  except Exception: handler] *)
Definition try_except {A} (body handler : M A) : M A :=
  fun app =>
    match body app with
    | (app', Return a) => (app', Return a)
    | (app', Raise) => handler app'
    end.

Definition lift {A} (o : outcome A) : M A := fun app => (app, o).

Notation "'let*' x ':=' m 'in' k" := (bind m (fun x => k))
  (at level 10, x pattern, m at level 100, k at level 200).

Definition with_world (f : World → World) : M unit :=
  fun app =>
    ({| state_manager := state_manager app;
        state_detector := state_detector app;
        input_controller := input_controller app;
        world := f (world app) |}, Return tt).

Definition emit (e : Event) : M unit :=
  with_world (fun w => {| captured := captured w; drawn := drawn w;
                          clock := clock w; events := events w ++ [e] |}).

(** [time.sleep(seconds)]: a negative argument is a [ValueError]. *)
Definition sleep (seconds : Q) : M unit :=
  if Qltb seconds 0 then raise
  else
    let* _ := with_world (fun w => {| captured := captured w; drawn := drawn w;
                                      clock := (clock w + seconds)%Q;
                                      events := events w |}) in
    emit (Sleep seconds).

(** [self.logger.warning(message)], [self.logger.error(message)] *)
Definition log (level : LogLevel) (message : string) : M unit :=
  emit (Log level message).

(** [self.last_action_time = time.time()] *)
Definition stamp_last_action : M unit :=
  fun app =>
    ({| state_manager := state_manager app;
        state_detector := state_detector app;
        input_controller :=
          {| min_delay := min_delay (input_controller app);
             max_delay := max_delay (input_controller app);
             move_duration_range := move_duration_range (input_controller app);
             last_action_time := clock (world app) |};
        world := world app |}, Return tt).

Section controller.
(** [uniform n a b] is the value the [n]-th call of [random.uniform]
    (counting from zero) returns when it is called with the bounds [a], [b]. *)
Variable uniform : nat → Q → Q → Q.

(** [random.uniform(a, b)] *)
Definition random_uniform (a b : Q) : M Q :=
  fun app =>
    ({| state_manager := state_manager app;
        state_detector := state_detector app;
        input_controller := input_controller app;
        world := {| captured := captured (world app);
                    drawn := S (drawn (world app));
                    clock := clock (world app);
                    events := events (world app) |} |},
     Return (uniform (drawn (world app)) a b)).

(** [InputController._random_delay] *)
Definition _random_delay : M unit :=
  let* delay :=
    (fun app => random_uniform (min_delay (input_controller app))
                               (max_delay (input_controller app)) app) in
  sleep delay.

(** [InputController._get_move_duration] *)
Definition _get_move_duration : M Q :=
  fun app => random_uniform (move_duration_range (input_controller app)).1
                            (move_duration_range (input_controller app)).2 app.

(** [InputController.move_to] *)
Definition move_to (x y : Z) (duration : option Q) : M unit :=
  let* duration :=
    match duration with
    | None => _get_move_duration
    | Some d => ret d
    end in
  let* _ := _random_delay in
  let* _ := emit (MoveTo x y duration) in
  stamp_last_action.

(** [InputController.click] with the left button and one click. *)
Definition click (x y : Z) (duration : option Q) : M unit :=
  let* _ := move_to x y duration in
  let* _ := _random_delay in
  let* _ := emit (Click x y) in
  stamp_last_action.

(** [InputController.click_template] *)
Definition click_template (template_match : TemplateMatch) (offset_x offset_y : Z)
  : M unit :=
  let '(center_x, center_y) := center template_match in
  let click_x := (center_x + offset_x)%Z in
  let click_y := (center_y + offset_y)%Z in
  click click_x click_y None.
End controller.

Section executor.
Variable matchTemplate : Image → Image → MatchMethod → option Surface.
Variable uniform : nat → Q → Q → Q.
(** [screen n] is the frame the [n]-th call of [ScreenCapture.capture]
    returns (counting from zero). *)
Variable screen : nat → Image.

(** [self.screen_capture.capture()] *)
Definition capture : M Image :=
  fun app =>
    ({| state_manager := state_manager app;
        state_detector := state_detector app;
        input_controller := input_controller app;
        world := {| captured := S (captured (world app));
                    drawn := drawn (world app);
                    clock := clock (world app);
                    events := events (world app) |} |},
     Return (screen (captured (world app)))).

(** [NikkeAutomation.update_state] *)
Definition update_state : M GameState :=
  let* screen_image := capture in
  let* detected_state :=
    (fun app => lift (detect_state matchTemplate (state_detector app) screen_image) app) in
  let* state_changed :=
    (fun app =>
       let r := update_state (state_manager app) detected_state
                                     (clock (world app)) in
       ({| state_manager := r.2;
           state_detector := state_detector app;
           input_controller := input_controller app;
           world := world app |}, Return r.1)) in
  ret detected_state.

(** [NikkeAutomation._execute_action].  The record logged by the [except]
    branch is kept without the text of the exception. *)
Definition _execute_action (action_name : string) : M bool :=
  try_except
    (let* screen_image := capture in
     if String.prefix "click_" action_name then
       let template_name :=
         String.substring 6 (String.length action_name - 6) action_name in
       let* found :=
         (fun app => lift (find_template matchTemplate
                             (template_matcher (state_detector app))
                             screen_image template_name EXACT 0.7%float false 5) app) in
       match found with
       | Some m => let* _ := click_template uniform m 0 0 in ret true
       | None =>
           let* _ := log WARNING ("Template not found for action: " ++ action_name) in
           ret false
       end
     else
       let* _ := log WARNING ("Unknown action: " ++ action_name) in
       ret false)
    (let* _ := log ERROR_LEVEL ("Error executing action " ++ action_name) in
     ret false).

(** [for action_name in transition.action_sequence: self._execute_action(action_name)] *)
Fixpoint run_actions (actions : list string) : M unit :=
  match actions with
  | [] => ret tt
  | action_name :: rest =>
      let* _ := _execute_action action_name in
      run_actions rest
  end.

(** One pass of the body of [for transition in path], up to the state
    freshly detected after the hop. *)
Definition hop (transition : StateTransition) : M GameState :=
  let* _ := run_actions (action_sequence transition) in
  let* _ := sleep (expected_duration transition) in
  update_state.

(** The [for transition in path] loop and the final [return True]. *)
Fixpoint walk (path : Path) : M bool :=
  match path with
  | [] => ret true
  | transition :: rest =>
      let* new_state := hop transition in
      if decide (new_state ≠ to_state transition) then
        let* _ := log WARNING
                    ("Expected to reach " ++ GameState_str (to_state transition)
                     ++ ", but got " ++ GameState_str new_state ++ " instead") in
        ret false
      else walk rest
  end.

(** [NikkeAutomation.navigate_to] *)
Definition navigate_to (target_state : GameState) : M bool :=
  let* current_state := update_state in
  if decide (current_state = target_state) then ret true
  else
    let* path := (fun app => (app, Return (find_path (state_manager app) target_state))) in
    match path with
    | None | Some [] =>
        let* _ := log ERROR_LEVEL
                    ("No path found from " ++ GameState_str current_state
                     ++ " to " ++ GameState_str target_state) in
        ret false
    | Some (transition :: rest) => walk (transition :: rest)
    end.
End executor.
End Main.

(** ** Further functions of the cited files *)

Section template_store.
(** [os.path.isfile], [cv2.imread] (which may raise, or return [None] for a
    file it cannot decode) and
    [os.path.splitext(os.path.basename(path))[0]]. *)
Variable isfile : string → bool.
Variable imread : string → outcome (option Image).
Variable stem : string → string.

(** [TemplateMatcher.load_template]: the returned flag and the matcher
    afterwards. *)
Definition load_template (self : TemplateMatcher) (path : string)
    (name : option string) : bool * TemplateMatcher :=
  if negb (isfile path) then (false, self)
  else
    match imread path with
    | Raise => (false, self)
    | Return None => (false, self)
    | Return (Some template) =>
        let name := match name with Some n => n | None => stem path end in
        (true, {| templates := <[name := template]> (templates self) |})
    end.
End template_store.

Section find_all.
Variable matchTemplate : Image → Image → MatchMethod → option Surface.

(** The [for template_name in self.templates] loop of
    [find_all_templates]. *)
Fixpoint find_all_loop (self : TemplateMatcher) (image : Image)
    (method : MatchMethod) (threshold : float) (max_results_per_template : Z)
    (names : list string) (results : gmap string (list TemplateMatch))
  : outcome (gmap string (list TemplateMatch)) :=
  match names with
  | [] => Return results
  | template_name :: rest =>
      match find_template matchTemplate self image template_name method
                          threshold true max_results_per_template with
      | Raise => Raise
      | Return matches =>
          find_all_loop self image method threshold max_results_per_template rest
            (match matches with
             | [] => results
             | _ :: _ => <[template_name := matches]> results
             end)
      end
  end.

(** [TemplateMatcher.find_all_templates]; the names are visited in the
    order the store enumerates them. *)
Definition find_all_templates (self : TemplateMatcher) (image : Image)
    (method : MatchMethod) (threshold : float) (max_results_per_template : Z)
  : outcome (gmap string (list TemplateMatch)) :=
  find_all_loop self image method threshold max_results_per_template
                (map_to_list (templates self)).*1 ∅.

(** [StateDetector.get_visible_ui_elements] *)
Definition get_visible_ui_elements (self : StateDetector) (screen_image : Image)
    (threshold : float) : outcome (gmap string (list TemplateMatch)) :=
  find_all_templates (template_matcher self) screen_image EXACT threshold 3.
End find_all.

(** ** [capture.py]: capture statistics *)

Record PerformanceStats : Type := mkPerformanceStats {
  total_captures : nat;
  total_time : float;
  avg_capture_time : float;
  max_capture_time : float;
}.

(** The statistics [ScreenCapture.__init__] starts from (the [int] zeros of
    the source, which the first update turns into doubles of the same
    value). *)
Definition PerformanceStats_init : PerformanceStats :=
  mkPerformanceStats 0 0 0 0.

(** [ScreenCapture._update_performance_stats]; [max(a, b)] keeps [a] unless
    [b] is strictly greater. *)
Definition _update_performance_stats (stats : PerformanceStats) (capture_time : float)
  : PerformanceStats :=
  let captures := S (total_captures stats) in
  let time := (total_time stats + capture_time)%float in
  {| total_captures := captures;
     total_time := time;
     avg_capture_time := (time / float_of_nat captures)%float;
     max_capture_time :=
       if (max_capture_time stats <? capture_time)%float then capture_time
       else max_capture_time stats |}.
(** ** Vocabulary of the statements

    Routes through the graph, the invariants of the loops, candidates of the
    detector, and the arrays used in worked examples. *)

(** [route items a b p]: [p] is an ordered list of registered transitions
    leading from [a] to [b], each hop being an entry of the dictionary. *)
Inductive route (items : list ((GameState * GameState) * StateTransition))
  : GameState → GameState → Path → Prop :=
  | route_nil a : route items a a []
  | route_snoc a w v tr p :
      route items a w p → ((w, v), tr) ∈ items → route items a v (p ++ [tr]).

Definition shortest (items : list ((GameState * GameState) * StateTransition))
    (a b : GameState) (p : Path) : Prop :=
  route items a b p ∧ ∀ q, route items a b q → length p ≤ length q.

Section bfs_invariant.
Variable items : list ((GameState * GameState) * StateTransition).
Variables source target : GameState.

(** The loop invariant.  The queue is [Q1 ++ Q2]: entries of [Q1] carry
    paths of [L] hops, entries of [Q2] paths of [S L] hops. *)
Record bfs_inv (L : nat) (Q1 Q2 : list (GameState * Path))
    (visited : gset GameState) : Prop := {
  inv_src : source ∈ visited;
  inv_tgt : target ∉ visited;
  inv_Q1 : ∀ s p, (s, p) ∈ Q1 → length p = L;
  inv_Q2 : ∀ s p, (s, p) ∈ Q2 → length p = S L;
  inv_route : ∀ s p, (s, p) ∈ Q1 ++ Q2 →
              s ∈ visited ∧ shortest items source s p;
  inv_near : ∀ v q, route items source v q → length q ≤ L → v ∈ visited;
  inv_closed : ∀ v u tr, v ∈ visited → v ∉ (Q1 ++ Q2).*1 →
               ((v, u), tr) ∈ items → u ∈ visited;
}.
End bfs_invariant.

(** Every entry stored by [register_transition] carries its own key in its
    [from_state] and [to_state] fields. *)
Definition consistent (items : list ((GameState * GameState) * StateTransition)) : Prop :=
  ∀ a b tr, ((a, b), tr) ∈ items → from_state tr = a ∧ to_state tr = b.

(** [linked a b p]: the transitions of [p] follow one another from [a] to [b]. *)
Fixpoint linked (a b : GameState) (p : Path) : Prop :=
  match p with
  | [] => a = b
  | tr :: p' => from_state tr = a ∧ linked (to_state tr) b p'
  end.

(** The graph of the two-edge example: [A→B] and [B→C] only. *)
Definition two_edges (A B C : GameState) (tAB tBC : StateTransition)
  : list ((GameState * GameState) * StateTransition) :=
  [((A, B), tAB); ((B, C), tBC)].

Definition at_state (s : GameState)
    (items : list ((GameState * GameState) * StateTransition)) : StateManager :=
  {| current_state := s; previous_state := None; state_history := [];
     transitions := items; stable_state_time := 0%Q |}.

(** The calls that can be made on a state manager. *)
Inductive Call : Type :=
  | CallUpdateState (new_state : GameState) (now : Q)
  | CallRegisterTransition (from_s to_s : GameState) (actions : list string) (duration : Q)
  | CallFindPath (target : GameState).

(** The manager after a call; [find_path] assigns no attribute. *)
Definition after_call (sm : StateManager) (c : Call) : StateManager :=
  match c with
  | CallUpdateState new_state now => (update_state sm new_state now).2
  | CallRegisterTransition a b actions duration =>
      register_transition sm a b actions duration
  | CallFindPath target =>
      match find_path sm target with _ => sm end
  end.

(** No two neighbouring entries of the list are equal. *)
Definition no_repeat (l : list GameState) : Prop :=
  ∀ i s s', l !! i = Some s → l !! S i = Some s' → s ≠ s'.

Definition session_inv (sm : StateManager) : Prop :=
  previous_state sm ≠ Some (current_state sm) ∧
  no_repeat (state_history sm).*1 ∧
  (state_history sm = [] ∨ last (state_history sm).*1 = Some (current_state sm)).

(** A double that is a number: Python's [x == x], false of NaN only. *)
Definition number (x : float) : Prop := PrimFloat.is_nan x = false.

(** [x <= y] on doubles; it holds of no NaN. *)
Definition fle (x y : float) : Prop := (x <=? y)%float = true.

(** The running extrema of the scan are the values of the cells they point
    at, and no cell seen so far is below the minimum or above the maximum. *)
Definition extrema_of (a : Surface) (seen : list (nat * nat))
    (acc : float * float * (nat * nat) * (nat * nat)) : Prop :=
  let '(min_val, max_val, min_loc, max_loc) := acc in
  min_loc ∈ seen ∧ max_loc ∈ seen ∧
  min_val = item a min_loc.2 min_loc.1 ∧
  max_val = item a max_loc.2 max_loc.1 ∧
  ∀ c, c ∈ seen → (item a c.2 c.1 <? min_val)%float = false ∧
                  (max_val <? item a c.2 c.1)%float = false.

(** The confidence reported for a raw score: [1 - raw] for the difference
    method, the raw score otherwise. *)
Definition oriented (method : MatchMethod) (raw : float) : float :=
  if bool_decide (method = SQDIFF) then (1 - raw)%float else raw.

(** No cell of the surface beats the raw score [raw]: every cell is at
    least [raw] for the difference method, at most [raw] for the others. *)
Definition unbeaten (method : MatchMethod) (result : Surface) (raw : float) : Prop :=
  ∀ x y, x < (shape result).2 → y < (shape result).1 →
    if bool_decide (method = SQDIFF) then fle raw (item result y x)
    else fle (item result y x) raw.

(** Arrays for worked examples: a frame of one colour, and a score surface
    given by its cells or by its rows. *)
Definition solid (rows cols : nat) (px : Z * Z * Z) : Image :=
  mkArray (rows, cols) (fun _ _ => px).

(** The surface holding the cells of an array, a NaN cell replaced by 0. *)
Definition numbers_only (a : ndarray float) : Surface :=
  {| scores :=
       mkArray (shape a)
               (fun y x => if PrimFloat.is_nan (item a y x) then 0%float else item a y x);
     scores_numbers := fun y x =>
       match PrimFloat.is_nan (item a y x) as b
         return PrimFloat.is_nan (item a y x) = b →
                PrimFloat.is_nan (if b then 0%float else item a y x) = false
       with
       | true => fun _ => eq_refl
       | false => fun H => H
       end eq_refl |}.

Definition surface_of_rows (rows : list (list float)) : Surface :=
  numbers_only (mkArray (length rows, length (hd [] rows))
                        (fun y x => nth x (nth y rows []) 0%float)).

(** Two match rectangles overlap when they share a region of positive area. *)
Definition overlaps (m1 m2 : TemplateMatch) : Prop :=
  ((top_left m1).1 < (bottom_right m2).1 ∧ (top_left m2).1 < (bottom_right m1).1 ∧
   (top_left m1).2 < (bottom_right m2).2 ∧ (top_left m2).2 < (bottom_right m1).2)%Z.

(** The part of the contract of [cv2.matchTemplate] the detector relies on:
    for a template that fits into the image the call returns a surface with
    at least one cell. *)
Definition cv2_total (matchTemplate : Image → Image → MatchMethod → option Surface) : Prop :=
  ∀ image template method,
    (shape template).1 ≤ (shape image).1 →
    (shape template).2 ≤ (shape image).2 →
    ∃ result, matchTemplate image template method = Some result ∧
              0 < (shape result).1 ∧ 0 < (shape result).2.

(** A stand-in for [cv2.matchTemplate] in worked examples: every search
    yields the one-cell surface holding [score]. *)
Definition cv2_const (score : float) : Image → Image → MatchMethod → option Surface :=
  fun _ _ _ => Some (surface_of_rows [[score]]).

Section candidates_def.
Variable matchTemplate : Image → Image → MatchMethod → option Surface.
Variable tm : TemplateMatcher.
Variable screen_image : Image.

(** The match found for a template at a threshold, if any. *)
Definition found (threshold : float) (name : string) : option TemplateMatch :=
  match find_one matchTemplate tm screen_image name EXACT threshold with
  | Return (Some m) => Some m
  | _ => None
  end.

Definition found_matches (rule : StateDefinition) : list TemplateMatch :=
  omap (found (confidence_threshold rule)) (required_templates rule).

(** The average confidence over the templates found for a rule, as the
    code computes it: the confidences are added to [0.0] in the order of the
    rule's template list and the sum is divided by their number. *)
Definition avg_confidence (rule : StateDefinition) : float :=
  (foldl PrimFloat.add 0 (confidence <$> found_matches rule)
   / float_of_nat (length (found_matches rule)))%float.

(** A rule makes its state a candidate when all of its required templates
    are found (match-all), or at least one is (match-any). *)
Definition candidate (rule : StateDefinition) : Prop :=
  if match_all rule
  then Forall (fun name => is_Some (found (confidence_threshold rule) name))
              (required_templates rule)
  else Exists (fun name => is_Some (found (confidence_threshold rule) name))
              (required_templates rule).

(** The entry the detector stores for a rule, as the code computes it. *)
Definition rule_score (rule : StateDefinition) : option float :=
  state_score rule (length (found_matches rule))
              (foldl PrimFloat.add 0%float (confidence <$> found_matches rule)).

(** The entry of [state_confidence] a registered rule gives rise to. *)
Definition rule_entry (e : GameState * StateDefinition) : option (GameState * float) :=
  (fun c => (e.1, c)) <$> rule_score e.2.

End candidates_def.

#[global] Instance candidate_dec matchTemplate tm screen_image rule :
  Decision (candidate matchTemplate tm screen_image rule).
Proof. unfold candidate. destruct (match_all rule); apply _. Defined.

(** The first of the maxima: every number before it is strictly smaller,
    nothing after it is larger. *)
Definition first_max (l1 : list (GameState * float)) (r : GameState * float)
    (l2 : list (GameState * float)) : Prop :=
  (∀ x, x ∈ l1 → number x.2 → (x.2 <? r.2)%float = true) ∧
  (∀ x, x ∈ l2 → (r.2 <? x.2)%float = false).

(** The automation after the sleep and the re-detection that end a hop,
    from the automation [app] the transition's actions left: the sleep has
    advanced the clock, one more frame was captured, and the manager has
    recorded the state [new_state] detected in it at that time. *)
Definition after_hop (app : NikkeAutomation) (transition : StateTransition)
    (new_state : GameState) : NikkeAutomation :=
  let now := (clock (world app) + expected_duration transition)%Q in
  {| state_manager := (update_state (state_manager app) new_state now).2;
     state_detector := state_detector app;
     input_controller := input_controller app;
     world := {| captured := S (captured (world app));
                 drawn := drawn (world app);
                 clock := now;
                 events := events (world app) ++ [Sleep (expected_duration transition)] |} |}.

(** The automation after a hop whose verification failed: as the hop left
    it, with the warning logged. *)
Definition after_mismatch (app : NikkeAutomation) (transition : StateTransition)
    (new_state : GameState) : NikkeAutomation :=
  let app' := after_hop app transition new_state in
  {| state_manager := state_manager app';
     state_detector := state_detector app';
     input_controller := input_controller app';
     world := {| captured := captured (world app');
                 drawn := drawn (world app');
                 clock := clock (world app');
                 events := events (world app') ++
                   [Log WARNING
                      ("Expected to reach " ++ GameState_str (to_state transition)
                       ++ ", but got " ++ GameState_str new_state ++ " instead")] |} |}.
(** What every match found for a template looks like: it echoes the name and
    the method, its confidence is not below the threshold, it has the
    template's extent, and its top-left corner is a cell of the surface. *)
Definition match_of (template : Image) (name : string) (meth : MatchMethod)
    (threshold : float) (result : Surface) (m : TemplateMatch) : Prop :=
  template_name m = name ∧ method m = meth ∧
  (confidence m <? threshold)%float = false ∧
  width m = Z.of_nat (shape template).2 ∧
  height m = Z.of_nat (shape template).1 ∧
  (0 ≤ (top_left m).1 < Z.of_nat (shape result).2)%Z ∧
  (0 ≤ (top_left m).2 < Z.of_nat (shape result).1)%Z.

(** The cells the loop masks after accepting [m]: the rectangle of the match
    widened by [mask_size] on every side. *)
Definition in_zone (m : TemplateMatch) (p : Z * Z) : Prop :=
  ((top_left m).1 - mask_size ≤ p.1 ≤ (bottom_right m).1 + mask_size ∧
   (top_left m).2 - mask_size ≤ p.2 ≤ (bottom_right m).2 + mask_size)%Z.

(** Every in-range cell in the zone of an accepted match holds 0. *)
Definition zeroed (result : Surface) (matches : list TemplateMatch) : Prop :=
  ∀ m x y, m ∈ matches → x < (shape result).2 → y < (shape result).1 →
           in_zone m (Z.of_nat x, Z.of_nat y) → item result y x = 0%float.

(** No match has its top-left corner in the zone of an earlier one. *)
Definition separated (matches : list TemplateMatch) : Prop :=
  ∀ i j m1 m2, i < j → matches !! i = Some m1 → matches !! j = Some m2 →
               ¬ in_zone m1 (top_left m2).

(** [grows app app']: from [app] to [app'] the detector and the graph are
    untouched, and frames and events were only added. *)
Definition grows (app app' : NikkeAutomation) : Prop :=
  state_detector app' = state_detector app ∧
  transitions (state_manager app') = transitions (state_manager app) ∧
  captured (world app) ≤ captured (world app') ∧
  events (world app) `prefix_of` events (world app').

(** A method that only ever makes the automation grow. *)
Definition preserves {A} (m : Main.M A) : Prop :=
  ∀ app, grows app (m app).1.


(** The place of a double in the order of [<]: sign and class first, then
    the exponent, then the mantissa (both negated for negative numbers). *)
Definition SFkey (x : spec_float) : Z * Z * Z :=
  match x with
  | S754_nan => (0, 0, 0)
  | S754_zero _ => (0, 0, 0)
  | S754_infinity s => (if s then -2 else 2, 0, 0)
  | S754_finite s m e => if s then (-1, - e, - Z.pos m) else (1, e, Z.pos m)
  end%Z.

(** Lexicographic comparison of two places. *)
Definition key_compare (a b : Z * Z * Z) : comparison :=
  match (a.1.1 ?= b.1.1)%Z with
  | Eq => match (a.1.2 ?= b.1.2)%Z with
          | Eq => (a.2 ?= b.2)%Z
          | c => c
          end
  | c => c
  end.

(** The three values [InputController.click] draws from [random.uniform]
    when it starts with [drawn = n]: the duration of the mouse move, the
    delay before the move and the delay before the click. *)
Definition move_duration (uniform : nat → Q → Q → Q) (app : NikkeAutomation) : Q :=
  uniform (drawn (world app))
          (move_duration_range (input_controller app)).1
          (move_duration_range (input_controller app)).2.

Definition delay_before_move (uniform : nat → Q → Q → Q) (app : NikkeAutomation) : Q :=
  uniform (S (drawn (world app)))
          (min_delay (input_controller app)) (max_delay (input_controller app)).

Definition delay_before_click (uniform : nat → Q → Q → Q) (app : NikkeAutomation) : Q :=
  uniform (S (S (drawn (world app))))
          (min_delay (input_controller app)) (max_delay (input_controller app)).

(** What a successful click on the match [m] adds to the events. *)
Definition click_events (uniform : nat → Q → Q → Q) (app : NikkeAutomation)
    (m : TemplateMatch) : list Event :=
  [Sleep (delay_before_move uniform app);
   MoveTo (center m).1 (center m).2 (move_duration uniform app);
   Sleep (delay_before_click uniform app);
   Click (center m).1 (center m).2].

Definition is_click (e : Event) : Prop :=
  match e with Click _ _ => True | _ => False end.

Definition is_log (e : Event) : Prop :=
  match e with Log _ _ => True | _ => False end.

(** What [_execute_action] looks for: the template named by the action
    string without its first six characters, in the frame [image]. *)
Definition action_match (matchTemplate : Image → Image → MatchMethod → option Surface)
    (app : NikkeAutomation) (image : Image) (action_name : string)
  : outcome (option TemplateMatch) :=
  find_one matchTemplate (template_matcher (state_detector app)) image
           (String.substring 6 (String.length action_name - 6) action_name)
           EXACT 0.7.
(** ** The order of doubles

    [<] and [<=] on primitive floats are specified by [SFcompare]; on
    numbers it is the lexicographic order of [SFkey]. *)

Lemma SFcompare_key x y :
  x ≠ S754_nan → y ≠ S754_nan →
  SFcompare x y = Some (key_compare (SFkey x) (SFkey y)).
Proof.
  intros Hx Hy. destruct x as [sx|sx| |sx mx ex], y as [sy|sy| |sy my ey]; try done;
    try (by destruct sx); try (by destruct sy); try (by destruct sx, sy).
  destruct sx, sy; try done; unfold SFcompare, key_compare; cbn [SFkey fst snd].
  change (-1 ?= -1)%Z with Eq. cbv iota.
  destruct (Z.compare_spec ex ey), (Z.compare_spec (- ex) (- ey)); try lia; try done.
Qed.

Lemma key_compare_lt a b :
  key_compare a b = Lt ↔
  (a.1.1 < b.1.1 ∨ (a.1.1 = b.1.1 ∧ (a.1.2 < b.1.2 ∨ (a.1.2 = b.1.2 ∧ a.2 < b.2))))%Z.
Proof.
  unfold key_compare.
  destruct (Z.compare_spec a.1.1 b.1.1); [|split; [intros _; lia|done]|split; [done|lia]].
  destruct (Z.compare_spec a.1.2 b.1.2); [|split; [intros _; lia|done]|split; [done|lia]].
  rewrite Z.compare_lt_iff. lia.
Qed.

Lemma number_spec x : number x ↔ Prim2SF x ≠ S754_nan.
Proof.
  unfold number, PrimFloat.is_nan. rewrite FloatAxioms.eqb_spec. unfold SFeqb.
  destruct (Prim2SF x) as [s|s| |s m e] eqn:E; simpl.
  - done.
  - by destruct s.
  - done.
  - destruct s; rewrite Z.compare_refl, Pos.compare_refl; done.
Qed.

Lemma ltb_key x y :
  number x → number y →
  (x <? y)%float = true ↔ key_compare (SFkey (Prim2SF x)) (SFkey (Prim2SF y)) = Lt.
Proof.
  intros Hx%number_spec Hy%number_spec. rewrite FloatAxioms.ltb_spec. unfold SFltb.
  rewrite SFcompare_key by done. destruct (key_compare _ _); split; done.
Qed.

(** [<] holds between numbers only. *)
Lemma ltb_number x y : (x <? y)%float = true → number x ∧ number y.
Proof.
  rewrite FloatAxioms.ltb_spec, !number_spec. unfold SFltb. intros H.
  split; intros E; rewrite E in H; simpl in H; [done|]. by destruct (Prim2SF x).
Qed.

Lemma ltb_irrefl x : (x <? x)%float = false.
Proof.
  destruct (x <? x)%float eqn:E; [|done].
  destruct (ltb_number _ _ E) as [Hx _]. apply ltb_key in E; [|done|done].
  apply key_compare_lt in E. lia.
Qed.

Lemma ltb_trans x y z :
  (x <? y)%float = true → (y <? z)%float = true → (x <? z)%float = true.
Proof.
  intros Hxy Hyz. destruct (ltb_number _ _ Hxy) as [Hx Hy].
  destruct (ltb_number _ _ Hyz) as [_ Hz]. revert Hxy Hyz.
  rewrite !ltb_key by done. rewrite !key_compare_lt. lia.
Qed.

(** [y] not above [x] and [x < z]: then [y < z], for a number [y]. *)
Lemma not_ltb_ltb_trans x y z :
  number y → (x <? y)%float = false → (x <? z)%float = true → (y <? z)%float = true.
Proof.
  intros Hy Hxy Hxz. destruct (ltb_number _ _ Hxz) as [Hx Hz].
  apply not_true_iff_false in Hxy. revert Hxy Hxz.
  rewrite !ltb_key by done. rewrite !key_compare_lt. lia.
Qed.

(** [x < z] and nothing of [c] above [x]: then [c] is not above [z]. *)
Lemma ltb_not_above x z c :
  (x <? c)%float = false → (x <? z)%float = true → (z <? c)%float = false.
Proof.
  intros Hxc Hxz. destruct (z <? c)%float eqn:E; [|done].
  by rewrite (ltb_trans _ _ _ Hxz E) in Hxc.
Qed.

(** [z < x] and nothing of [c] below [x]: then [c] is not below [z]. *)
Lemma ltb_not_below x z c :
  (c <? x)%float = false → (z <? x)%float = true → (c <? z)%float = false.
Proof.
  intros Hcx Hzx. destruct (c <? z)%float eqn:E; [|done].
  by rewrite (ltb_trans _ _ _ E Hzx) in Hcx.
Qed.

Lemma fle_number x y : fle x y → number x ∧ number y.
Proof.
  unfold fle. rewrite FloatAxioms.leb_spec, !number_spec. unfold SFleb. intros H.
  split; intros E; rewrite E in H; simpl in H; [done|]. by destruct (Prim2SF x).
Qed.

Lemma leb_key x y :
  number x → number y →
  fle x y ↔ key_compare (SFkey (Prim2SF x)) (SFkey (Prim2SF y)) ≠ Gt.
Proof.
  intros Hx%number_spec Hy%number_spec. unfold fle.
  rewrite FloatAxioms.leb_spec. unfold SFleb.
  rewrite SFcompare_key by done. destruct (key_compare _ _); split; done.
Qed.

Lemma key_compare_gt a b : key_compare a b = Gt ↔ key_compare b a = Lt.
Proof.
  unfold key_compare.
  rewrite (Z.compare_antisym a.1.1 b.1.1), (Z.compare_antisym a.1.2 b.1.2),
    (Z.compare_antisym a.2 b.2).
  destruct (a.1.1 ?= b.1.1)%Z, (a.1.2 ?= b.1.2)%Z, (a.2 ?= b.2)%Z; simpl; split; done.
Qed.

(** On numbers, [not (x < y)] is [y <= x]. *)
Lemma ltb_false_fle x y : number x → number y → (x <? y)%float = false ↔ fle y x.
Proof.
  intros Hx Hy. rewrite (leb_key y x) by done.
  rewrite key_compare_gt, <- (ltb_key x y) by done.
  destruct (x <? y)%float; split; done.
Qed.

(** [t <= x] once [x] is not below [t] and [t] is at least some number: the
    case of a threshold [t >= 0]. *)
Lemma not_below_zero x t :
  fle 0 t → (x <? t)%float = false → (x <? 0)%float = false.
Proof.
  intros Ht Hxt. destruct (x <? 0)%float eqn:E; [|done].
  destruct (ltb_number _ _ E) as [Hx H0]. destruct (fle_number _ _ Ht) as [_ Hn].
  apply not_true_iff_false in Hxt. revert Ht Hxt E.
  rewrite leb_key, !ltb_key by done. rewrite key_compare_gt, !key_compare_lt. lia.
Qed.

(** *** Division by one

    The average over a single confidence, [(0.0 + s) / 1], is computed
    without rounding. *)

Lemma div_eucl_mul (q b : Z) : (0 < b)%Z → Z.div_eucl (q * b) b = (q, 0%Z).
Proof.
  intros Hb. destruct (Z.div_eucl (q * b) b) as [q' r'] eqn:E.
  assert (q' = (q * b / b)%Z) as -> by (unfold Z.div; by rewrite E).
  assert (r' = (q * b mod b)%Z) as -> by (unfold Z.modulo; by rewrite E).
  rewrite Z.div_mul, Z.mod_mul by lia. done.
Qed.

Lemma binary_round_aux_exact s m e shift :
  (shift = 0 ∨ shift = 1)%Z →
  (Z.max (Z.pos (digits2_pos m) + e - 53) (-1074) = e)%Z → (e ≤ 971)%Z →
  (shift = 1 → Z.pos (digits2_pos m) = 53)%Z →
  binary_round_aux 53 1024 s (Z.pos m * 2 ^ shift) (e - shift) loc_Exact
  = S754_finite s m e.
Proof.
  intros Hshift Hcan Hmax Hnormal.
  unfold binary_round_aux, shr_fexp, fexp, emin. cbn [shr_record_of_loc].
  destruct Hshift as [-> | ->].
  - rewrite Z.mul_1_r, Z.sub_0_r. cbn [Zdigits2].
    replace (Z.max _ (3 - 1024 - 53) - e)%Z with 0%Z by lia.
    cbn [shr shr_m loc_of_shr_record round_nearest_even Zdigits2].
    replace (Z.max _ (3 - 1024 - 53) - e)%Z with 0%Z by lia.
    cbn [shr shr_m]. by rewrite (proj2 (Z.leb_le _ _)) by lia.
  - specialize (Hnormal eq_refl).
    replace (Z.pos m * 2 ^ 1)%Z with (Z.pos m~0) by (change (2 ^ 1)%Z with 2%Z; lia). cbn [Zdigits2 digits2_pos].
    rewrite Pos2Z.inj_succ, Hnormal in *.
    replace (Z.max _ (3 - 1024 - 53) - (e - 1))%Z with 1%Z by lia.
    cbn [shr SpecFloat.iter_pos shr_1 orb shr_m loc_of_shr_record round_nearest_even
         Zdigits2].
    rewrite Hnormal.
    replace (e - 1 + 1)%Z with e by lia.
    replace (Z.max _ (3 - 1024 - 53) - e)%Z with 0%Z by lia.
    cbn [shr shr_m]. by rewrite (proj2 (Z.leb_le _ _)) by lia.
Qed.

Lemma SFdiv_one s m e :
  valid_binary (S754_finite s m e) = true →
  SF64div (S754_finite s m e) (S754_finite false 4503599627370496 (-52))
  = S754_finite s m e.
Proof.
  unfold SpecFloat.valid_binary, bounded, canonical_mantissa, fexp, emin.
  change prec with 53%Z. change emax with 1024%Z.
  intros [Hcan Hmax%Z.leb_le]%andb_true_iff. apply Z.eqb_eq in Hcan.
  unfold SF64div, SFdiv, SFdiv_core_binary.
  change (Zdigits2 (Z.pos 4503599627370496)) with 53%Z.
  unfold fexp, emin. change prec with 53%Z. change emax with 1024%Z.
  cbn [Zdigits2].
  assert (0 < Z.pos (digits2_pos m))%Z by lia.
  destruct (decide (e = -1074)%Z) as [->|Hne].
  - replace (Z.min _ _) with (-1074)%Z by lia.
    change (-1074 - -52 - -1074)%Z with 52%Z. cbv iota.
    rewrite Z.shiftl_mul_pow2 by lia.
    change (2 ^ 52)%Z with 4503599627370496%Z.
    rewrite div_eucl_mul by lia.
    change (new_location 4503599627370496 0) with loc_Exact.
    rewrite xorb_false_r.
    rewrite <- (binary_round_aux_exact s m (-1074) 0); [|by left|lia|lia|lia].
    by rewrite Z.mul_1_r, Z.sub_0_r.
  - assert (Z.pos (digits2_pos m) = 53)%Z as Hd by lia.
    replace (Z.min _ _) with (e - 1)%Z by lia.
    replace (e - -52 - (e - 1))%Z with 53%Z by lia. cbv iota.
    rewrite Z.shiftl_mul_pow2 by lia.
    change (2 ^ 53)%Z with (2 * 4503599627370496)%Z.
    rewrite Z.mul_assoc, div_eucl_mul by lia.
    change (new_location 4503599627370496 0) with loc_Exact.
    rewrite xorb_false_r.
    rewrite <- (binary_round_aux_exact s m e 1); [done|by right|lia|lia|done].
Qed.

(** [(0.0 + s) / 1] is [s], for every double but the negative zero (which
    gives the positive zero). *)
Lemma average_of_one (s : float) :
  s ≠ (-0)%float → ((0 + s) / 1)%float = s.
Proof.
  intros Hs. apply Prim2SF_inj.
  rewrite div_spec, add_spec.
  change (Prim2SF 0) with (S754_zero false).
  change (Prim2SF 1) with (S754_finite false 4503599627370496 (-52)).
  pose proof (Prim2SF_valid s) as Hvalid.
  destruct (Prim2SF s) as [sg|sg| |sg m e] eqn:E.
  - destruct sg; [|done]. exfalso. apply Hs. apply Prim2SF_inj. by rewrite E.
  - cbn. by rewrite xorb_false_r.
  - done.
  - change (SF64add (S754_zero false) (S754_finite sg m e)) with (S754_finite sg m e).
    by apply SFdiv_one.
Qed.
(** ** Dictionary lemmas *)

Section dict_lemmas.
Context {K V : Type} `{EqDecision K}.

Lemma dict_keys_set_in (k : K) (v : V) (d : list (K * V)) : k ∈ Dict.keys d → Dict.keys (Dict.set k v d) = Dict.keys d.
Proof.
  induction d as [|[k' v'] r IH]; simpl; [by intros ?%elem_of_nil|].
  intros Hin. destruct (decide (k = k')) as [->|Hne]; [done|].
  simpl. f_equal. apply IH. apply elem_of_cons in Hin as [?|?]; done.
Qed.

Lemma dict_keys_set_notin (k : K) (v : V) (d : list (K * V)) : k ∉ Dict.keys d → Dict.keys (Dict.set k v d) = Dict.keys d ++ [k].
Proof.
  induction d as [|[k' v'] r IH]; simpl; [done|].
  intros Hin. apply not_elem_of_cons in Hin as [Hne Hin].
  destruct (decide (k = k')); [done|]. simpl. f_equal. by apply IH.
Qed.

Lemma dict_wf_nil : Dict.wf (K := K) (V := V) [].
Proof. constructor. Qed.

Lemma dict_wf_set (k : K) (v : V) (d : list (K * V)) : Dict.wf d → Dict.wf (Dict.set k v d).
Proof.
  unfold Dict.wf. intros Hd. destruct (decide (k ∈ Dict.keys d)) as [Hin|Hin].
  - by rewrite dict_keys_set_in.
  - rewrite dict_keys_set_notin by done.
    apply NoDup_app. split_and!; [done| |apply NoDup_singleton].
    intros x Hx ->%list_elem_of_singleton. done.
Qed.

Lemma dict_get_set_eq (k : K) (v : V) (d : list (K * V)) : Dict.get k (Dict.set k v d) = Some v.
Proof.
  induction d as [|[k' v'] r IH]; simpl.
  - by rewrite decide_True.
  - destruct (decide (k = k')) as [->|Hne]; simpl.
    + by rewrite decide_True.
    + by rewrite decide_False.
Qed.

Lemma dict_get_set_ne (k k' : K) (v : V) (d : list (K * V)) : k ≠ k' → Dict.get k' (Dict.set k v d) = Dict.get k' d.
Proof.
  intros Hne. induction d as [|[k0 v0] r IH]; simpl.
  - by rewrite decide_False.
  - destruct (decide (k = k0)) as [->|Hne0]; simpl.
    + by rewrite !decide_False.
    + destruct (decide (k' = k0)); done.
Qed.

Lemma dict_set_set (k : K) (v1 v2 : V) (d : list (K * V)) : Dict.set k v2 (Dict.set k v1 d) = Dict.set k v2 d.
Proof.
  induction d as [|[k' v'] r IH]; simpl.
  - by rewrite decide_True.
  - destruct (decide (k = k')) as [->|Hne]; simpl.
    + by rewrite decide_True.
    + rewrite decide_False by done. by rewrite IH.
Qed.

Lemma dict_elem_of_get (k : K) (v : V) (d : list (K * V)) : Dict.wf d → (k, v) ∈ d ↔ Dict.get k d = Some v.
Proof.
  unfold Dict.wf, Dict.keys. induction d as [|[k' v'] r IH]; simpl.
  - intros _. split; [by intros ?%elem_of_nil|done].
  - intros [Hnotin Hr]%NoDup_cons. rewrite elem_of_cons.
    destruct (decide (k = k')) as [->|Hne].
    + split.
      * intros [[= ->]|Hin]; [done|].
        exfalso. apply Hnotin. apply list_elem_of_fmap. by exists (k', v).
      * intros [= ->]. by left.
    + rewrite <- IH by done. split; [|by right].
      intros [[= -> ->]|Hin]; done.
Qed.

Lemma dict_get_Some_elem_of (k : K) (v : V) (d : list (K * V)) : Dict.get k d = Some v → (k, v) ∈ d.
Proof.
  induction d as [|[k' v'] r IH]; simpl; [done|].
  destruct (decide (k = k')) as [->|Hne].
  - intros [= ->]. apply elem_of_cons. by left.
  - intros H. apply elem_of_cons. right. by apply IH.
Qed.
Lemma dict_set_elem_of (k k0 : K) (v v0 : V) (d : list (K * V)) :
  (k0, v0) ∈ Dict.set k v d → (k0 = k ∧ v0 = v) ∨ (k0, v0) ∈ d.
Proof.
  induction d as [|[k' v'] r IH]; simpl.
  - intros [= -> ->]%list_elem_of_singleton. by left.
  - destruct (decide (k = k')) as [->|Hne].
    + intros [[= -> ->]|Hin]%elem_of_cons; [by left|]. right. by right.
    + intros [[= -> ->]|Hin]%elem_of_cons; [right; by left|].
      destruct (IH Hin) as [?|?]; [by left|]. right. by right.
Qed.
End dict_lemmas.

Example find_path_error_to_shop :
  option_map (map from_state) (find_path (update_state StateManager_init ERROR 0%Q).2 SHOP)
  = Some [ERROR; HOME_SCREEN].
Proof. vm_compute. reflexivity. Qed.


(** ** Breadth-first search: routes, the loop invariant, termination *)

Lemma route_nil_inv items a b : route items a b [] → b = a.
Proof.
  inversion 1 as [|? ? ? ? p ? ? Hp]; [done|]. by destruct p.
Qed.

Lemma route_snoc_inv items a v q k :
  route items a v q → length q = S k →
  ∃ w tr q', q = q' ++ [tr] ∧ length q' = k ∧
             route items a w q' ∧ ((w, v), tr) ∈ items.
Proof.
  inversion 1 as [|? w ? tr p Hr Hin Hp]; subst; [done|].
  rewrite length_app. simpl. intros Hlen.
  exists w, tr, p. split_and!; [done|lia|done|done].
Qed.

Lemma size_gset_le_card (X : gset GameState) : size X ≤ card GameState.
Proof.
  transitivity (size (list_to_set (C := gset GameState) (enum GameState))).
  - apply subseteq_size. intros x _. apply elem_of_list_to_set, elem_of_enum.
  - rewrite size_list_to_set by apply NoDup_enum. done.
Qed.

Section bfs.
Variable items : list ((GameState * GameState) * StateTransition).
Variables source target : GameState.

(** What one run of the inner loop does, for the popped entry [(s, p)]. *)
Lemma scan_spec s p todo visited queue :
  (∀ e, e ∈ todo → e ∈ items) →
  target ∉ visited →
  match scan todo s p target visited queue with
  | Found new_path => ∃ tr, new_path = p ++ [tr] ∧ ((s, target), tr) ∈ items
  | Continue visited' queue' =>
      ∃ new, queue' = (queue ++ new) ∧
             visited' = visited ∪ list_to_set (new.*1) ∧
             size visited' = size visited + length new ∧
             (target ∉ visited') ∧
             (∀ u pu, (u, pu) ∈ new →
                (u ∉ visited) ∧ ∃ tr, pu = p ++ [tr] ∧ ((s, u), tr) ∈ items) ∧
             (∀ u tr, ((s, u), tr) ∈ todo → u ∈ visited')
  end.
Proof.
  revert visited queue.
  induction todo as [|[[from_s to_s] tr] rest IH]; intros visited queue Hsub Ht; simpl.
  - exists []. split_and!.
    + by rewrite app_nil_r.
    + simpl. set_solver.
    + simpl. lia.
    + done.
    + by intros ? ? ?%elem_of_nil.
    + by intros ? ? ?%elem_of_nil.
  - assert (Hrest : ∀ e, e ∈ rest → e ∈ items)
      by (intros e He; apply Hsub; by right).
    assert (Hhd : ((from_s, to_s), tr) ∈ items) by (apply Hsub; by left).
    destruct (decide (from_s = s ∧ to_s ∉ visited)) as [[-> Hnv]|Hno].
    + destruct (decide (to_s = target)) as [->|Hnt]; [by exists tr|].
      specialize (IH ({[to_s]} ∪ visited) (queue ++ [(to_s, p ++ [tr])]) Hrest).
      destruct (scan rest s p target _ _) as [np|v' q']; [apply IH; set_solver|].
      destruct IH as (new & -> & -> & Hsz & Ht' & Hnew & Hclosed); [set_solver|].
      exists ((to_s, p ++ [tr]) :: new). split_and!.
      * by rewrite <- app_assoc.
      * simpl. set_solver.
      * rewrite Hsz, size_union, size_singleton by set_solver. simpl. lia.
      * done.
      * intros u pu [[= -> ->]|Hin]%elem_of_cons; [by eauto|].
        destruct (Hnew _ _ Hin) as [Hu Htr]. split; [set_solver|done].
      * intros u tr' [[= -> ->]|Hin]%elem_of_cons; [set_solver|by eauto].
    + specialize (IH visited queue Hrest Ht).
      destruct (scan rest s p target _ _) as [np|v' q']; [done|].
      destruct IH as (new & -> & -> & Hsz & Ht' & Hnew & Hclosed).
      exists new. split_and!; try done.
      intros u tr' [[= <- -> ->]|Hin]%elem_of_cons; [|by eauto].
      destruct (decide (to_s ∈ visited)); [set_solver|]. by destruct Hno.
Qed.

(** The loop always ends within the fuel a finite state type allows. *)
Lemma bfs_terminates fuel queue visited :
  target ∉ visited →
  length queue + card GameState < fuel + size visited →
  is_Some (bfs fuel items target queue visited).
Proof.
  revert queue visited. induction fuel as [|fuel IH]; intros queue visited Ht Hm.
  - pose proof (size_gset_le_card visited). lia.
  - simpl. destruct queue as [|[s p] rest]; [by eexists|].
    pose proof (scan_spec s p items visited rest (λ _ H, H) Ht) as Hscan.
    destruct (scan items s p target visited rest) as [np|v' q']; [by eexists|].
    destruct Hscan as (new & -> & _ & Hsz & Ht' & _).
    apply IH; [done|]. rewrite length_app. simpl in Hm. lia.
Qed.

Lemma bfs_inv_init :
  source ≠ target → bfs_inv items source target 0 [(source, [])] [] {[source]}.
Proof.
  intros Hne. split.
  - set_solver.
  - set_solver.
  - by intros s p [= -> ->]%list_elem_of_singleton.
  - by intros s p ?%elem_of_nil.
  - intros s p [= -> ->]%list_elem_of_singleton. split; [set_solver|].
    split; [constructor|]. simpl. lia.
  - intros v q Hr Hlen. destruct q; [|simpl in Hlen; lia].
    apply route_nil_inv in Hr as ->. set_solver.
  - intros v u tr ->%elem_of_singleton Hq. exfalso. apply Hq. simpl. set_solver.
Qed.

(** When the [L]-hop part of the queue is used up, the invariant holds
    one level further. *)
Lemma bfs_inv_advance L Q2 visited :
  bfs_inv items source target L [] Q2 visited → bfs_inv items source target (S L) Q2 [] visited.
Proof.
  intros [Hs Ht H1 H2 Hr Hn Hc]. simpl in *. split; try done.
  - by intros s p ?%elem_of_nil.
  - by rewrite app_nil_r.
  - intros v q Hq Hlen.
    destruct (decide (length q ≤ L)) as [|Hgt]; [by eapply Hn|].
    assert (length q = S L) as Hl by lia.
    destruct (route_snoc_inv _ _ _ _ _ Hq Hl) as (w & tr & q' & -> & Hl' & Hw & Hin).
    assert (w ∈ visited) as Hwv by (eapply Hn; [done|lia]).
    eapply Hc; [exact Hwv| |exact Hin].
    intros ([w' pw] & Heq & Hin')%list_elem_of_fmap. simpl in Heq. subst w'.
    pose proof (H2 _ _ Hin') as Hlw.
    destruct (Hr _ _ Hin') as [_ [_ Hmin]].
    specialize (Hmin _ Hw). lia.
  - by rewrite app_nil_r.
Qed.

(** With an empty queue every state a route leads to has been visited. *)
Lemma bfs_inv_empty L visited v q :
  bfs_inv items source target L [] [] visited → route items source v q → v ∈ visited.
Proof.
  intros [Hs Ht H1 H2 Hr Hn Hc]. induction 1 as [|a w v tr p Hp IH Hin]; [done|].
  eapply Hc; [apply IH; done| |exact Hin]. simpl. by intros ?%elem_of_nil.
Qed.
Lemma bfs_inv_head L Q1 Q2 visited e rest :
  bfs_inv items source target L Q1 Q2 visited → Q1 ++ Q2 = e :: rest →
  ∃ L' Q1' Q2', rest = Q1' ++ Q2' ∧ bfs_inv items source target L' (e :: Q1') Q2' visited.
Proof.
  intros Hinv Heq. destruct Q1 as [|e1 Q1'].
  - simpl in Heq. subst Q2. exists (S L), rest, [].
    split; [by rewrite app_nil_r|]. by apply bfs_inv_advance.
  - simpl in Heq. injection Heq as -> <-. by exists L, Q1', Q2.
Qed.

(** One iteration of the outer loop keeps the invariant, or returns a
    minimum-hop route to the target. *)
Lemma bfs_inv_step L s p Q1 Q2 visited :
  bfs_inv items source target L ((s, p) :: Q1) Q2 visited →
  match scan items s p target visited (Q1 ++ Q2) with
  | Found new_path => shortest items source target new_path
  | Continue visited' queue' =>
      ∃ new, queue' = Q1 ++ (Q2 ++ new) ∧ bfs_inv items source target L Q1 (Q2 ++ new) visited'
  end.
Proof.
  intros [Hs Ht H1 H2 Hr Hn Hc].
  pose proof (scan_spec s p items visited (Q1 ++ Q2) (λ _ H, H) Ht) as Hscan.
  assert (length p = L) as Hlen by (apply (H1 s); by left).
  destruct (Hr s p) as [Hsv [Hsp Hsmin]]; [by left|].
  assert (Hfresh : ∀ u tr, ((s, u), tr) ∈ items → u ∉ visited →
                   shortest items source u (p ++ [tr])).
  { intros u tr Hin Hu. split; [by econstructor|].
    intros q Hq. rewrite length_app. simpl.
    destruct (decide (length q ≤ L)) as [Hle|]; [|lia].
    exfalso. apply Hu. by eapply Hn. }
  destruct (scan items s p target visited (Q1 ++ Q2)) as [np|v' q'].
  - destruct Hscan as (tr & -> & Hin). by apply Hfresh.
  - destruct Hscan as (new & -> & -> & _ & Ht' & Hnew & Hclosed).
    exists new. split; [by rewrite app_assoc|]. split.
    + set_solver.
    + done.
    + intros s' p' Hin. apply (H1 s'). by right.
    + intros s' p' [Hin|Hin]%elem_of_app; [by apply (H2 s')|].
      destruct (Hnew _ _ Hin) as [_ (tr & -> & _)].
      rewrite length_app. simpl. lia.
    + intros s' p' Hin. rewrite app_assoc in Hin.
      apply elem_of_app in Hin as [Hin|Hin].
      * destruct (Hr s' p') as [? ?]; [by right|]. split; [set_solver|done].
      * destruct (Hnew _ _ Hin) as [Hu (tr & -> & Htr)]. split.
        -- apply elem_of_union_r, elem_of_list_to_set, list_elem_of_fmap.
           by exists (s', p ++ [tr]).
        -- by apply Hfresh.
    + intros v q Hq Hl. apply elem_of_union_l. by eapply Hn.
    + intros v u tr Hv Hnq Hin.
      destruct (decide (v = s)) as [->|Hvs]; [by eapply Hclosed|].
      rewrite app_assoc, fmap_app, not_elem_of_app in Hnq.
      destruct Hnq as [Hnq Hnn].
      apply elem_of_union in Hv as [Hv|Hv].
      * apply elem_of_union_l. eapply Hc; [exact Hv| |exact Hin].
        simpl. rewrite not_elem_of_cons. done.
      * by apply elem_of_list_to_set in Hv.
Qed.

(** Whatever the loop returns is right: a minimum-hop route, or [None]
    when no route exists. *)
Lemma bfs_correct fuel L Q1 Q2 visited r :
  bfs_inv items source target L Q1 Q2 visited →
  bfs fuel items target (Q1 ++ Q2) visited = Some r →
  match r with
  | Some p => shortest items source target p
  | None => ∀ q, ¬ route items source target q
  end.
Proof.
  revert L Q1 Q2 visited. induction fuel as [|fuel IH]; intros L Q1 Q2 visited Hinv; [done|].
  simpl. destruct (Q1 ++ Q2) as [|[s p] rest] eqn:Hq.
  - intros [= <-] q Hroute. apply app_eq_nil in Hq as [-> ->].
    apply (inv_tgt _ _ _ _ _ _ _ Hinv). by eapply bfs_inv_empty.
  - destruct (bfs_inv_head _ _ _ _ _ _ Hinv Hq) as (L' & Q1' & Q2' & -> & Hinv').
    pose proof (bfs_inv_step _ _ _ _ _ _ Hinv') as Hstep.
    destruct (scan items s p target visited (Q1' ++ Q2')) as [np|v' q'].
    + by intros [= <-].
    + destruct Hstep as (new & -> & Hinv''). by eapply IH.
Qed.
End bfs.

(** *** [find_path]: what it returns *)

Lemma find_path_loop_terminates sm target :
  is_Some (find_path_loop sm target).
Proof.
  unfold find_path_loop. case_decide as Hc; [by eexists|].
  apply bfs_terminates; [set_solver|].
  rewrite size_singleton. unfold bfs_fuel. cbn [length]. lia.
Qed.

Lemma find_path_same sm : find_path sm (current_state sm) = Some [].
Proof. unfold find_path, find_path_loop. by rewrite decide_True. Qed.

Lemma find_path_sound sm target p :
  find_path sm target = Some p →
  shortest (transitions sm) (current_state sm) target p.
Proof.
  unfold find_path, find_path_loop. case_decide as Hc.
  - intros [= <-]. subst target. split; [constructor|]. simpl. lia.
  - destruct (bfs _ _ _ _ _) as [r|] eqn:Hb; [|done]. intros ->.
    by apply (bfs_correct _ _ _ _ 0 [(current_state sm, [])] [] _ _
                (bfs_inv_init _ _ _ Hc) Hb).
Qed.

Lemma find_path_none sm target :
  find_path sm target = None →
  ∀ q, ¬ route (transitions sm) (current_state sm) target q.
Proof.
  unfold find_path. destruct (find_path_loop_terminates sm target) as [r Hr].
  rewrite Hr. intros ->. revert Hr. unfold find_path_loop. case_decide as Hc; [done|].
  intros Hb.
  by apply (bfs_correct _ _ _ _ 0 [(current_state sm, [])] [] _ _
              (bfs_inv_init _ _ _ Hc) Hb).
Qed.

Lemma find_path_complete sm target q :
  route (transitions sm) (current_state sm) target q →
  ∃ p, find_path sm target = Some p ∧
       shortest (transitions sm) (current_state sm) target p.
Proof.
  intros Hq. destruct (find_path sm target) as [p|] eqn:Hp.
  - exists p. split; [done|]. by apply find_path_sound.
  - exfalso. by eapply find_path_none.
Qed.

Lemma linked_snoc a w b tr p :
  linked a w p → from_state tr = w → to_state tr = b → linked a b (p ++ [tr]).
Proof.
  revert a. induction p as [|t p IH]; simpl; intros a.
  - by intros -> <- <-.
  - intros [<- Hl] Hf Ht. split; [done|]. by apply IH.
Qed.

Lemma route_linked items a b p :
  consistent items → route items a b p → linked a b p.
Proof.
  intros Hc. induction 1 as [|a w v tr p Hr IH Hin]; [done|].
  destruct (Hc _ _ _ Hin). by eapply linked_snoc.
Qed.

Lemma register_transition_consistent sm a b acts d :
  consistent (transitions sm) →
  consistent (transitions (register_transition sm a b acts d)).
Proof.
  intros Hc a' b' tr Hin. simpl in Hin.
  apply dict_set_elem_of in Hin as [[[= -> ->] ->]|Hin]; [done|]. by apply Hc.
Qed.

Lemma find_path_two_edges A B C tAB tBC :
  A ≠ B → B ≠ C → A ≠ C →
  find_path (at_state A (two_edges A B C tAB tBC)) C = Some [tAB; tBC] ∧
  find_path (at_state C (two_edges A B C tAB tBC)) A = None.
Proof.
  intros HAB HBC HAC.
  destruct A, B, C; try done; split; vm_compute; reflexivity.
Qed.

(** C1. [find_path] is a breadth-first search over the registered edges:
    the loop ends within its fuel; the result is the empty list exactly when
    the current state is the target; when some route leads from the current
    state to the target the result is a route with the fewest hops (and its
    transitions are linked end to end when the entries carry their keys);
    when no route exists the result is [None]; and on the graph with the
    two edges [A→B], [B→C] the search from [A] to [C] returns [[A→B; B→C]]
    while the search from [C] to [A] returns [None]. *)
Theorem find_path_bfs (sm : StateManager) (target : GameState) :
  is_Some (find_path_loop sm target) ∧
  (find_path sm target = Some [] ↔ current_state sm = target) ∧
  ((∃ q, route (transitions sm) (current_state sm) target q) →
   ∃ p, find_path sm target = Some p ∧
        shortest (transitions sm) (current_state sm) target p ∧
        (consistent (transitions sm) → linked (current_state sm) target p)) ∧
  ((∀ q, ¬ route (transitions sm) (current_state sm) target q) →
   find_path sm target = None) ∧
  (∀ A B C tAB tBC, A ≠ B → B ≠ C → A ≠ C →
   find_path (at_state A (two_edges A B C tAB tBC)) C = Some [tAB; tBC] ∧
   find_path (at_state C (two_edges A B C tAB tBC)) A = None).
Proof.
  split_and!.
  - apply find_path_loop_terminates.
  - split.
    + intros Hp. apply find_path_sound in Hp as [Hr _].
      by apply route_nil_inv in Hr.
    + intros <-. apply find_path_same.
  - intros [q Hq]. destruct (find_path_complete _ _ _ Hq) as (p & Hp & Hs).
    exists p. split_and!; [done|done|].
    intros Hc. eapply route_linked; [done|]. apply Hs.
  - intros Hno. destruct (find_path sm target) as [p|] eqn:Hp; [|done].
    apply find_path_sound in Hp as [Hr _]. by destruct (Hno p).
  - apply find_path_two_edges.
Qed.

Lemma find_path_bfs_witness :
  let tAB := mkStateTransition HOME_SCREEN SHOP ["click_template:home/shop_icon"] 2%Q in
  let tBC := mkStateTransition SHOP BATTLE [] 1%Q in
  let sm := at_state HOME_SCREEN (two_edges HOME_SCREEN SHOP BATTLE tAB tBC) in
  (∃ p, find_path sm BATTLE = Some p ∧
        shortest (transitions sm) (current_state sm) BATTLE p ∧
        (consistent (transitions sm) → linked (current_state sm) BATTLE p)) ∧
  find_path sm BATTLE = Some [tAB; tBC] ∧
  find_path (at_state BATTLE (two_edges HOME_SCREEN SHOP BATTLE tAB tBC)) HOME_SCREEN = None.
Proof.
  intros tAB tBC sm.
  destruct (find_path_bfs sm BATTLE) as (_ & _ & Hreach & _ & Hex).
  split.
  - apply Hreach. exists ([tAB] ++ [tBC]).
    apply (route_snoc _ HOME_SCREEN SHOP BATTLE tBC [tAB]);
      [apply (route_snoc _ HOME_SCREEN HOME_SCREEN SHOP tAB []); [constructor|]|].
    + apply elem_of_cons. left. reflexivity.
    + apply elem_of_cons. right. apply elem_of_cons. left. reflexivity.
  - apply (Hex HOME_SCREEN SHOP BATTLE tAB tBC); discriminate.
Defined.

(** ** [update_state], [register_transition], [get_reachable_states] *)

(** C7. [update_state] with the current state returns [False] and leaves the
    manager as it is (current state, previous state, history and dwell-start
    timestamp included); with a different state it returns [True], moves the
    old current state into [previous_state], appends [(new_state, now)] to the
    history and sets the dwell-start timestamp to [now]. *)
Theorem update_state_frame (sm : StateManager) (new_state : GameState) (now : Q) :
  (new_state = current_state sm →
   update_state sm new_state now = (false, sm)) ∧
  (new_state ≠ current_state sm →
   (update_state sm new_state now).1 = true ∧
   current_state (update_state sm new_state now).2 = new_state ∧
   previous_state (update_state sm new_state now).2 = Some (current_state sm) ∧
   state_history (update_state sm new_state now).2
     = state_history sm ++ [(new_state, now)] ∧
   stable_state_time (update_state sm new_state now).2 = now ∧
   transitions (update_state sm new_state now).2 = transitions sm).
Proof.
  unfold update_state. split; intros Hs.
  - by rewrite decide_True.
  - by rewrite decide_False.
Qed.

Lemma update_state_frame_witness :
  update_state StateManager_init UNKNOWN (5 # 1) = (false, StateManager_init) ∧
  state_history (update_state StateManager_init SHOP (5 # 1)).2 = [(SHOP, (5 # 1)%Q)].
Proof.
  destruct (update_state_frame StateManager_init UNKNOWN (5 # 1)) as [Hsame _].
  destruct (update_state_frame StateManager_init SHOP (5 # 1)) as [_ Hdiff].
  split.
  - apply Hsame. reflexivity.
  - destruct Hdiff as (_ & _ & _ & Hh & _); [discriminate|]. exact Hh.
Defined.

(** C9. Registering a transition for a pair replaces whatever was stored for
    that pair: after two registrations for [(a, b)] the dictionary is the one
    the second registration alone would have produced, the edge holds the
    second action list and duration, keys stay unique (one transition per
    ordered pair, as in the freshly constructed manager), and other pairs
    are untouched. *)
Theorem register_transition_last_wins (sm : StateManager) (a b : GameState)
    (acts1 acts2 : list string) (d1 d2 : Q) :
  let sm1 := register_transition sm a b acts1 d1 in
  let sm2 := register_transition sm1 a b acts2 d2 in
  Dict.get (a, b) (transitions sm2) = Some (mkStateTransition a b acts2 d2) ∧
  transitions sm2 = transitions (register_transition sm a b acts2 d2) ∧
  Dict.wf (transitions StateManager_init) ∧
  (Dict.wf (transitions sm) →
   Dict.wf (transitions sm1) ∧ Dict.wf (transitions sm2) ∧
   ∀ tr, ((a, b), tr) ∈ transitions sm2 → tr = mkStateTransition a b acts2 d2) ∧
  (∀ k, k ≠ (a, b) → Dict.get k (transitions sm2) = Dict.get k (transitions sm)).
Proof.
  intros sm1 sm2. subst sm1 sm2. simpl. split_and!.
  - apply dict_get_set_eq.
  - apply dict_set_set.
  - unfold Dict.wf. apply NoDup_ListNoDup. vm_compute.
    repeat (constructor; [simpl; intuition discriminate|]). constructor.
  - intros Hwf.
    assert (Dict.wf (Dict.set (a, b) (mkStateTransition a b acts1 d1) (transitions sm)))
      as Hwf1 by by apply dict_wf_set.
    assert (Dict.wf (Dict.set (a, b) (mkStateTransition a b acts2 d2)
                      (Dict.set (a, b) (mkStateTransition a b acts1 d1) (transitions sm))))
      as Hwf2 by by apply dict_wf_set.
    split_and!; [done|done|].
    intros tr Hin. apply dict_elem_of_get in Hin; [|done].
    rewrite dict_get_set_eq in Hin. by injection Hin.
  - intros k Hk. by rewrite !dict_get_set_ne.
Qed.

Lemma register_transition_last_wins_witness :
  let sm2 := register_transition
               (register_transition StateManager_init HOME_SCREEN SHOP ["wait:1.0"] 1)
               HOME_SCREEN SHOP ["click_template:home/shop_icon"] 2 in
  Dict.wf (transitions sm2) ∧
  Dict.get (SHOP, HOME_SCREEN) (transitions sm2)
    = Dict.get (SHOP, HOME_SCREEN) (transitions StateManager_init).
Proof.
  destruct (register_transition_last_wins StateManager_init HOME_SCREEN SHOP
              ["wait:1.0"] ["click_template:home/shop_icon"] 1 2)
    as (_ & _ & Hinit & Hwf & Hother).
  split.
  - apply (Hwf Hinit).
  - apply Hother. discriminate.
Defined.

Lemma no_repeat_snoc l s :
  no_repeat l → last l ≠ Some s → no_repeat (l ++ [s]).
Proof.
  intros Hl Hlast i x y Hx Hy.
  destruct (decide (S i < length l)) as [Hlt|Hge].
  - rewrite lookup_app_l in Hx by lia. rewrite lookup_app_l in Hy by lia.
    by eapply Hl.
  - assert (S i = length l) as Hi.
    { apply lookup_lt_Some in Hy. rewrite length_app in Hy. simpl in Hy. lia. }
    rewrite lookup_app_l in Hx by lia.
    rewrite lookup_app_r, Hi, Nat.sub_diag in Hy by lia. simpl in Hy.
    injection Hy as <-. intros ->. apply Hlast.
    rewrite last_lookup. rewrite <- Hi. simpl. exact Hx.
Qed.

Lemma session_inv_init : session_inv StateManager_init.
Proof. split_and!; [done| |by left]. intros i s s' Hs. by destruct i. Qed.

Lemma session_inv_call sm c : session_inv sm → session_inv (after_call sm c).
Proof.
  intros (Hprev & Hrep & Hlast). destruct c as [new_state now|a b acts d|target]; simpl.
  - unfold update_state. case_decide as Hs; [done|].
    unfold session_inv. cbn [snd current_state previous_state state_history].
    rewrite fmap_app. cbn [fmap list_fmap fst]. split_and!.
    + intros [= Heq]. apply Hs. by rewrite Heq.
    + apply no_repeat_snoc; [done|].
      destruct Hlast as [-> | ->]; [done|].
      intros [= Heq]. apply Hs. by rewrite Heq.
    + right. by rewrite last_snoc.
  - done.
  - by destruct (find_path sm target).
Qed.

(** C10. In every manager reached from a freshly constructed one by calls of
    [update_state], [register_transition] and [find_path], the previous state
    is unset or differs from the current state, and no two neighbouring
    entries of the history record the same state. *)
Theorem session_invariant (calls : list Call) :
  let sm := foldl after_call StateManager_init calls in
  (previous_state sm = None ∨
   ∃ p, previous_state sm = Some p ∧ p ≠ current_state sm) ∧
  no_repeat (state_history sm).*1.
Proof.
  intros sm.
  assert (session_inv sm) as (Hprev & Hrep & _).
  { subst sm. induction calls as [|c calls IH] using rev_ind.
    - apply session_inv_init.
    - rewrite foldl_app. simpl. by apply session_inv_call. }
  split; [|done].
  destruct (previous_state sm) as [p|]; [|by left].
  right. exists p. split; [done|]. congruence.
Qed.

Lemma get_reachable_states_fold (current : GameState)
    (keys : list (GameState * GameState)) (X : gset GameState) (s : GameState) :
  s ∈ foldl (fun reachable '(from_s, to_s) =>
               if decide (from_s = current) then {[to_s]} ∪ reachable
               else reachable) X keys
  ↔ s ∈ X ∨ (current, s) ∈ keys.
Proof.
  revert X. induction keys as [|[f t] keys IH]; intros X; simpl.
  - rewrite elem_of_nil. tauto.
  - rewrite IH, elem_of_cons. case_decide as Hf.
    + subst f. rewrite elem_of_union, elem_of_singleton.
      split; [intros [[->|?]|?]; auto|intros [?|[[= ->]|?]]; auto].
    + split; [intros [?|?]; auto|intros [?|[[= -> ->]|?]]; auto]. done.
Qed.

(** C8. [get_reachable_states] is exactly the current state together with
    the targets of the edges registered from it; it is strictly weaker than
    [can_transition_to]: a state that routes lead to, but only routes of two
    hops or more, can be reached according to [can_transition_to] and is not
    in [get_reachable_states].  With only [HOME_SCREEN→SHOP] registered the
    set at [HOME_SCREEN] is [{HOME_SCREEN, SHOP}]. *)
Theorem reachable_states_one_hop (sm : StateManager) :
  (∀ s, s ∈ get_reachable_states sm ↔
        s = current_state sm ∨ (current_state sm, s) ∈ Dict.keys (transitions sm)) ∧
  (∀ C q, route (transitions sm) (current_state sm) C q →
          (∀ q', route (transitions sm) (current_state sm) C q' → 2 ≤ length q') →
          can_transition_to sm C = true ∧ C ∉ get_reachable_states sm) ∧
  (∀ tr, get_reachable_states (at_state HOME_SCREEN [((HOME_SCREEN, SHOP), tr)])
         = {[HOME_SCREEN; SHOP]}).
Proof.
  assert (Hchar : ∀ s, s ∈ get_reachable_states sm ↔
        s = current_state sm ∨ (current_state sm, s) ∈ Dict.keys (transitions sm)).
  { intros s. unfold get_reachable_states.
    rewrite get_reachable_states_fold, elem_of_singleton. done. }
  split_and!; [done| |].
  - intros C q Hq Hfar. split.
    + unfold can_transition_to.
      destruct (find_path_complete _ _ _ Hq) as (p & -> & _). done.
    + rewrite Hchar. intros [->|Hedge].
      * specialize (Hfar [] (route_nil _ _)). simpl in Hfar. lia.
      * apply list_elem_of_fmap in Hedge as ([k tr] & Hk & Hin). simpl in Hk. subst k.
        specialize (Hfar ([] ++ [tr])
                      (route_snoc _ _ _ _ _ _ (route_nil _ _) Hin)).
        simpl in Hfar. lia.
  - intros tr. apply set_eq. intros s. unfold get_reachable_states. simpl.
    set_solver.
Qed.

Lemma reachable_states_one_hop_witness :
  let tAB := mkStateTransition HOME_SCREEN SHOP ["click_template:home/shop_icon"] 2%Q in
  let tBC := mkStateTransition SHOP BATTLE [] 1%Q in
  let sm := at_state HOME_SCREEN (two_edges HOME_SCREEN SHOP BATTLE tAB tBC) in
  can_transition_to sm BATTLE = true ∧ BATTLE ∉ get_reachable_states sm.
Proof.
  intros tAB tBC sm.
  destruct (reachable_states_one_hop sm) as (_ & Hfar & _).
  apply (Hfar BATTLE ([tAB] ++ [tBC])).
  - apply (route_snoc _ HOME_SCREEN SHOP BATTLE tBC [tAB]);
      [apply (route_snoc _ HOME_SCREEN HOME_SCREEN SHOP tAB []); [constructor|]|].
    + apply elem_of_cons. left. reflexivity.
    + apply elem_of_cons. right. apply elem_of_cons. left. reflexivity.
  - intros q' Hq'. destruct q' as [|t1 [|t2 q'']]; simpl; [| |lia].
    + apply route_nil_inv in Hq'. discriminate.
    + exfalso.
      destruct (route_snoc_inv _ _ _ _ 0 Hq' eq_refl) as (w & tr & p & _ & Hp & Hr & Hin).
      destruct p; [|discriminate]. apply route_nil_inv in Hr. subst w.
      apply elem_of_cons in Hin as [Hin|Hin]; [discriminate|].
      apply elem_of_cons in Hin as [Hin|Hin]; [discriminate|].
      by apply elem_of_nil in Hin.
Defined.

(** ** The matcher: [cv2.minMaxLoc], [find_template] *)

Lemma Qltb_lt (x y : Q) : Qltb x y = true ↔ (x < y)%Q.
Proof. unfold Qltb, Qlt. apply Z.ltb_lt. Qed.

Lemma Qltb_ge (x y : Q) : Qltb x y = false ↔ (y <= x)%Q.
Proof. unfold Qltb, Qle. rewrite Z.ltb_ge. done. Qed.

Lemma elem_of_coords (rows cols x y : nat) :
  (x, y) ∈ coords rows cols ↔ x < cols ∧ y < rows.
Proof.
  unfold coords. rewrite list_elem_of_bind. split.
  - intros (y' & Hx & Hy). apply list_elem_of_bind in Hx as (x' & Hx & Hx').
    apply list_elem_of_singleton in Hx as [= -> ->].
    apply elem_of_seq in Hx', Hy. lia.
  - intros [Hx Hy]. exists y. split; [|apply elem_of_seq; lia].
    apply list_elem_of_bind. exists x. split; [by apply list_elem_of_singleton|].
    apply elem_of_seq. lia.
Qed.

Lemma minMax_step_extrema a seen acc c :
  extrema_of a seen acc → extrema_of a (seen ++ [c]) (minMax_step a acc c).
Proof.
  destruct acc as [[[mn mx] mnl] mxl]. intros (Hmnl & Hmxl & Hmn & Hmx & Hall).
  unfold minMax_step, extrema_of. set (v := item a c.2 c.1).
  assert (Hold : ∀ c', c' ∈ seen → c' ∈ seen ++ [c])
    by (intros c' ?; apply elem_of_app; by left).
  assert (Hc : c ∈ seen ++ [c])
    by (apply elem_of_app; right; by apply list_elem_of_singleton).
  split_and!.
  - destruct (v <? mn)%float; auto.
  - destruct (mx <? v)%float; auto.
  - destruct (v <? mn)%float; [reflexivity|exact Hmn].
  - destruct (mx <? v)%float; [reflexivity|exact Hmx].
  - intros c' [Hc' | Hc']%elem_of_app.
    + destruct (Hall _ Hc') as [H1 H2]. split.
      * destruct (v <? mn)%float eqn:E; [|exact H1]. by eapply ltb_not_below.
      * destruct (mx <? v)%float eqn:E; [|exact H2]. by eapply ltb_not_above.
    + apply list_elem_of_singleton in Hc'. subst c'. fold v. split.
      * destruct (v <? mn)%float eqn:E; [apply ltb_irrefl|exact E].
      * destruct (mx <? v)%float eqn:E; [apply ltb_irrefl|exact E].
Qed.

Lemma minMax_fold_extrema a rest seen acc :
  extrema_of a seen acc →
  extrema_of a (seen ++ rest) (foldl (minMax_step a) acc rest).
Proof.
  revert seen acc. induction rest as [|c rest IH]; intros seen acc Hacc; simpl.
  - by rewrite app_nil_r.
  - replace (seen ++ c :: rest) with ((seen ++ [c]) ++ rest)
      by (by rewrite <- app_assoc).
    apply IH. by apply minMax_step_extrema.
Qed.

(** [cv2.minMaxLoc] on a non-empty array returns the extreme values and
    cells of the whole array. *)
Lemma minMaxLoc_spec (a : Surface) :
  0 < (shape a).1 → 0 < (shape a).2 →
  ∃ acc, minMaxLoc a = Some acc ∧
         extrema_of a (coords (shape a).1 (shape a).2) acc.
Proof.
  intros Hr Hc. unfold minMaxLoc.
  destruct (coords (shape a).1 (shape a).2) as [|c rest] eqn:Hco.
  - assert ((0, 0) ∈ coords (shape a).1 (shape a).2) as Hin
      by by apply elem_of_coords.
    rewrite Hco in Hin. by apply elem_of_nil in Hin.
  - eexists. split; [done|].
    apply (minMax_fold_extrema a rest [c]). simpl.
    split_and!; try done; try (by apply list_elem_of_singleton).
    intros c' ->%list_elem_of_singleton. split; apply ltb_irrefl.
Qed.




(** The confidence is the rounded one.  With the difference method and a
    raw distance of [2^-60] the double [1 - 2^-60] is [1]: at threshold [1]
    the match is returned, with confidence [1]. *)
Example find_one_rounded_score :
  let icon := solid 2 2 (10, 20, 30)%Z in
  let tm := mkTemplateMatcher {["icon" := icon]} in
  find_one (cv2_const 0x1p-60) tm icon "icon" SQDIFF 1
  = Return (Some (mkTemplateMatch (0, 0)%Z (2, 2)%Z 1%float "icon" SQDIFF)).
Proof. vm_compute. reflexivity. Qed.

(** What does hold of the [multiple] branch: the loop adds at most [n]
    matches, each with a confidence not below the threshold. *)
Lemma find_matches_bounds n result template name method threshold matches r :
  find_matches n result template name method threshold matches = Return r →
  ∃ new, r = matches ++ new ∧ length new ≤ n ∧
         Forall (fun m => (confidence m <? threshold)%float = false) new.
Proof.
  revert result matches. induction n as [|n IH]; intros result matches; simpl.
  - intros [= <-]. exists []. by rewrite app_nil_r.
  - destruct (minMaxLoc result) as [[[[mn mx] mnl] mxl]|]; [|done].
    destruct (_ <? threshold)%float eqn:Hlt.
    + intros [= <-]. exists []. rewrite app_nil_r. split_and!; [done|simpl; lia|done].
    + intros Hr. apply IH in Hr as (new & -> & Hlen & Hall).
      eexists (_ :: new). split_and!.
      * by rewrite <- app_assoc.
      * simpl. lia.
      * constructor; [|done]. simpl. exact Hlt.
Qed.

(** Where the claim's example does hold: a correlation method, a positive
    threshold, and five equally scoring peaks ten cells apart for a template
    three cells wide.  With [max_results = 3] the first three peaks in scan
    order are returned, and their rectangles are disjoint. *)
Example find_many_five_instances :
  let peaks : Surface :=
    numbers_only
      (mkArray (1, 41) (fun _ x => if x mod 10 =? 0 then 0.9%float else 0.1%float)) in
  let cv2 := fun (_ _ : Image) (_ : MatchMethod) => Some peaks in
  let tm := mkTemplateMatcher {["coin" := solid 3 3 (10, 20, 30)%Z]} in
  let at_x (x : Z) := mkTemplateMatch (x, 0)%Z (x + 3, 3)%Z 0.9%float "coin" EXACT in
  find_many cv2 tm (solid 3 43 (0, 0, 0)%Z) "coin" EXACT 0.8 3
    = Return [at_x 0%Z; at_x 10%Z; at_x 20%Z] ∧
  ¬ overlaps (at_x 0%Z) (at_x 10%Z) ∧ ¬ overlaps (at_x 10%Z) (at_x 20%Z) ∧
  ¬ overlaps (at_x 0%Z) (at_x 20%Z).
Proof.
  intros. split_and!; [vm_compute; reflexivity|..]; unfold overlaps; simpl; lia.
Qed.

(** C4 (the code departs from the claim).  Searching a frame for itself with
    the difference method, [cv2.matchTemplate] yields the one-cell surface
    holding the raw distance 0.  The loop masks the accepted cell with 0,
    which is the best raw distance, so the same cell is accepted again: with
    [max_results = 3] the result is three times the same rectangle.  With a
    correlation method the mask reaches only [mask_size] cells to the left
    of an accepted location, so a second peak six cells to the left of the
    first yields two rectangles sharing four columns. *)
Theorem find_many_overlaps :
  let frame := solid 8 8 (10, 20, 30)%Z in
  let tm := mkTemplateMatcher {["icon" := frame]} in
  let cv2_self := fun (_ _ : Image) (_ : MatchMethod) => Some (surface_of_rows [[0%float]]) in
  let m0 := mkTemplateMatch (0, 0)%Z (8, 8)%Z (1 - 0)%float "icon" SQDIFF in
  let wide := solid 10 16 (10, 20, 30)%Z in
  let tm' := mkTemplateMatcher {["tile" := solid 10 10 (10, 20, 30)%Z]} in
  let cv2_peaks := fun (_ _ : Image) (_ : MatchMethod) =>
    Some (surface_of_rows
            [[0.9; 0.1; 0.1; 0.1; 0.1; 0.1; 0.95]]%float) in
  let m1 := mkTemplateMatch (6, 0)%Z (16, 10)%Z 0.95%float "tile" EXACT in
  let m2 := mkTemplateMatch (0, 0)%Z (10, 10)%Z 0.9%float "tile" EXACT in
  find_many cv2_self tm frame "icon" SQDIFF 0.8 3 = Return [m0; m0; m0] ∧
  overlaps m0 m0 ∧
  find_many cv2_peaks tm' wide "tile" EXACT 0.8 3 = Return [m1; m2] ∧
  overlaps m1 m2.
Proof.
  intros. split_and!.
  - vm_compute. reflexivity.
  - unfold overlaps. simpl. lia.
  - vm_compute. reflexivity.
  - unfold overlaps. simpl. lia.
Qed.

(** ** The detector: candidates and the selection *)

Lemma find_one_returns matchTemplate self image name method threshold :
  cv2_total matchTemplate →
  ∃ r, find_one matchTemplate self image name method threshold = Return r.
Proof.
  intros Hcv. unfold find_one, find_template.
  destruct (templates self !! name) as [template|]; [|by eauto].
  case_bool_decide as Hfit; [by eauto|].
  destruct (Hcv image template method) as (result & -> & H1 & H2); [lia|lia|].
  destruct (minMaxLoc_spec result H1 H2) as ([[[mn mx] mnl] mxl] & Hmm & _).
  unfold find_best. rewrite Hmm. destruct (_ <? threshold)%float; by eauto.
Qed.

Section candidates.
Variable matchTemplate : Image → Image → MatchMethod → option Surface.
Variable tm : TemplateMatcher.
Variable screen_image : Image.

Lemma count_matches_spec threshold names k t :
  cv2_total matchTemplate →
  count_matches matchTemplate tm screen_image threshold names k t
  = Return (k + length (omap (found matchTemplate tm screen_image threshold) names),
            foldl PrimFloat.add t
              (confidence <$> omap (found matchTemplate tm screen_image threshold) names)).
Proof.
  intros Hcv. revert k t. induction names as [|name rest IH]; intros k t; csimpl.
  - by rewrite Nat.add_0_r.
  - destruct (find_one_returns matchTemplate tm screen_image name EXACT threshold Hcv)
      as [r Hr].
    assert (found matchTemplate tm screen_image threshold name = r) as Hf
      by (unfold found; rewrite Hr; by destruct r).
    rewrite Hf. unfold find_one in Hr. rewrite Hr.
    destruct r as [m|]; csimpl.
    + rewrite IH. csimpl. f_equal. f_equal. lia.
    + by rewrite IH.
Qed.

Lemma length_omap_le {A B} (f : A → option B) (l : list A) :
  length (omap f l) ≤ length l.
Proof.
  induction l as [|a l IH]; csimpl; [done|]. destruct (f a); csimpl; lia.
Qed.

Lemma length_omap_all {A B} (f : A → option B) (l : list A) :
  length (omap f l) = length l ↔ Forall (fun a => is_Some (f a)) l.
Proof.
  induction l as [|a l IH]; csimpl.
  - split; [constructor|done].
  - pose proof (length_omap_le f l). rewrite Forall_cons.
    destruct (f a) as [b|]; csimpl.
    + rewrite <- IH. split.
      * intros [= Hl]. split; [by eexists|done].
      * intros [_ Hl]. by rewrite Hl.
    + split; [lia|]. intros [[? [=]] _].
Qed.

Lemma length_omap_some {A B} (f : A → option B) (l : list A) :
  0 < length (omap f l) ↔ Exists (fun a => is_Some (f a)) l.
Proof.
  induction l as [|a l IH]; csimpl.
  - split; [lia|]. by intros ?%Exists_nil.
  - rewrite Exists_cons. destruct (f a) as [b|] eqn:Hf; csimpl.
    + split; [intros _; left; by eexists|lia].
    + rewrite IH. split; [by right|]. intros [[? [=]]|?]. done.
Qed.

(** For a rule with at least one required template, the code stores an
    entry exactly when the rule makes its state a candidate, and the entry
    is the average confidence. *)
Lemma rule_score_candidate (rule : StateDefinition) :
  required_templates rule ≠ [] →
  (candidate matchTemplate tm screen_image rule →
   rule_score matchTemplate tm screen_image rule
   = Some (avg_confidence matchTemplate tm screen_image rule)) ∧
  (¬ candidate matchTemplate tm screen_image rule →
   rule_score matchTemplate tm screen_image rule = None).
Proof.
  intros Hne. unfold candidate, rule_score, state_score, avg_confidence, found_matches.
  set (f := found matchTemplate tm screen_image (confidence_threshold rule)).
  pose proof (length_omap_le f (required_templates rule)) as Hle.
  pose proof (length_omap_all f (required_templates rule)) as Hall.
  pose proof (length_omap_some f (required_templates rule)) as Hsome.
  assert (0 < length (required_templates rule)) as Hpos
    by (destruct (required_templates rule); [done|simpl; lia]).
  destruct (match_all rule); simpl.
  - split.
    + intros Hc. apply Hall in Hc. rewrite Hc.
      destruct (0 <? _) eqn:E; [|apply Nat.ltb_ge in E; lia].
      by rewrite Nat.eqb_refl.
    + intros Hc. destruct (0 <? _) eqn:E; [|done].
      destruct (_ =? _) eqn:E'; [|done].
      apply Nat.eqb_eq in E'. by apply Hall in E'.
  - split.
    + intros Hc. apply Hsome in Hc.
      destruct (0 <? _) eqn:E; [done|apply Nat.ltb_ge in E; lia].
    + intros Hc. destruct (0 <? _) eqn:E; [|done].
      apply Nat.ltb_lt in E. by apply Hsome in E.
Qed.
End candidates.

Lemma dict_set_fresh {K V} `{EqDecision K} (k : K) (v : V) (d : list (K * V)) :
  k ∉ Dict.keys d → Dict.set k v d = d ++ [(k, v)].
Proof.
  induction d as [|[k' v'] r IH]; simpl; [done|].
  intros [Hne Hin]%not_elem_of_cons. rewrite decide_False by done. by rewrite IH.
Qed.

Lemma max_by_confidence_scan pre best mid l :
  first_max pre best mid →
  ∃ l1 l2, pre ++ best :: mid ++ l = l1 ++ max_by_confidence best l :: l2 ∧
           first_max l1 (max_by_confidence best l) l2.
Proof.
  revert pre best mid. induction l as [|x l IH]; intros pre best mid [Hpre Hmid]; simpl.
  - exists pre, mid. by rewrite app_nil_r.
  - destruct (best.2 <? x.2)%float eqn:E.
    + destruct (IH (pre ++ best :: mid) x []) as (l1 & l2 & Heq & Hfm).
      { split; [|by intros ? ?%elem_of_nil].
        intros y [Hy|[->|Hy]%elem_of_cons]%elem_of_app Hnum.
        - eapply ltb_trans; [by apply Hpre|done].
        - done.
        - eapply not_ltb_ltb_trans; [done|by apply Hmid|done]. }
      exists l1, l2. split; [|done]. rewrite <- Heq. simpl.
      by rewrite <- app_assoc.
    + destruct (IH pre best (mid ++ [x])) as (l1 & l2 & Heq & Hfm).
      { split; [done|].
        intros y [Hy| ->%list_elem_of_singleton]%elem_of_app; [by apply Hmid|done]. }
      exists l1, l2. split; [|done]. rewrite <- Heq. by rewrite <- app_assoc.
Qed.

Lemma max_by_confidence_spec first others :
  ∃ l1 l2, first :: others = l1 ++ max_by_confidence first others :: l2 ∧
           first_max l1 (max_by_confidence first others) l2.
Proof.
  apply (max_by_confidence_scan [] first [] others).
  split; by intros ? ?%elem_of_nil.
Qed.

Lemma omap_split {A B} (f : A → option B) (l : list A) (l1 : list B) (r : B) (l2 : list B) :
  omap f l = l1 ++ r :: l2 →
  ∃ d1 e d2, l = d1 ++ e :: d2 ∧ omap f d1 = l1 ∧ f e = Some r ∧ omap f d2 = l2.
Proof.
  revert l1. induction l as [|a l IH]; intros l1; csimpl.
  - by destruct l1.
  - destruct (f a) as [b|] eqn:Hf; csimpl.
    + destruct l1 as [|b1 l1]; simpl.
      * intros [= -> Hl]. exists [], a, l. by rewrite Hl.
      * intros [= -> Hl]. destruct (IH _ Hl) as (d1 & e & d2 & -> & H1 & He & H2).
        exists (a :: d1), e, d2. csimpl. rewrite Hf. csimpl. by rewrite H1.
    + intros Hl. destruct (IH _ Hl) as (d1 & e & d2 & -> & H1 & He & H2).
      exists (a :: d1), e, d2. csimpl. by rewrite Hf.
Qed.

Section detect.
Variable matchTemplate : Image → Image → MatchMethod → option Surface.
Variable tm : TemplateMatcher.
Variable screen_image : Image.
Hypothesis cv2_ok : cv2_total matchTemplate.

Lemma rule_entry_key e r :
  rule_entry matchTemplate tm screen_image e = Some r → r.1 = e.1.
Proof.
  unfold rule_entry. destruct (rule_score _ _ _ _); [|done]. by intros [= <-].
Qed.

Lemma keys_omap_rule_entry defs k :
  k ∈ Dict.keys (omap (rule_entry matchTemplate tm screen_image) defs) →
  k ∈ Dict.keys defs.
Proof.
  unfold Dict.keys. intros ([k' c] & -> & Hin)%list_elem_of_fmap.
  apply list_elem_of_omap in Hin as (e & He & Hr).
  apply rule_entry_key in Hr. simpl in Hr. subst k'.
  apply list_elem_of_fmap. by exists e.
Qed.

(** With unique keys every candidate's entry is appended, in registration
    order. *)
Lemma score_states_spec defs acc :
  NoDup (Dict.keys defs) →
  (∀ k, k ∈ Dict.keys defs → k ∉ Dict.keys acc) →
  score_states matchTemplate tm screen_image defs acc
  = Return (acc ++ omap (rule_entry matchTemplate tm screen_image) defs).
Proof.
  revert acc. induction defs as [|[state rule] defs IH]; intros acc Hnd Hfresh; csimpl.
  - by rewrite app_nil_r.
  - apply NoDup_cons in Hnd as [Hstate Hnd].
    rewrite count_matches_spec by done. simpl.
    unfold rule_entry at 1, rule_score, found_matches. simpl.
    destruct (state_score rule _ _) as [avg|]; csimpl.
    + rewrite dict_set_fresh by (apply Hfresh; by left).
      rewrite IH; [by rewrite <- app_assoc|done|].
      intros k Hk. unfold Dict.keys. rewrite fmap_app. simpl.
      intros [Hin| ->%list_elem_of_singleton]%elem_of_app; [|done].
      eapply Hfresh; [|done]. by right.
    + apply IH; [done|]. intros k Hk. apply Hfresh. by right.
Qed.
End detect.

Section detect_claim.
Variable matchTemplate : Image → Image → MatchMethod → option Surface.
Variable self : StateDetector.
Variable screen_image : Image.

Let is_candidate (rule : StateDefinition) : Prop :=
  candidate matchTemplate (template_matcher self) screen_image rule.
Let average (rule : StateDefinition) : float :=
  avg_confidence matchTemplate (template_matcher self) screen_image rule.

Hypothesis cv2_ok : cv2_total matchTemplate.
Hypothesis defs_wf : Dict.wf (state_definitions self).
Hypothesis defs_nonempty :
  ∀ s rule, (s, rule) ∈ state_definitions self → required_templates rule ≠ [].

Lemma rule_entry_candidate s rule :
  (s, rule) ∈ state_definitions self →
  (is_candidate rule →
   rule_entry matchTemplate (template_matcher self) screen_image (s, rule)
   = Some (s, average rule)) ∧
  (¬ is_candidate rule →
   rule_entry matchTemplate (template_matcher self) screen_image (s, rule) = None).
Proof.
  intros Hin. unfold rule_entry. simpl.
  destruct (rule_score_candidate matchTemplate (template_matcher self) screen_image
              rule (defs_nonempty _ _ Hin)) as [Hyes Hno].
  split; intros Hc.
  - by rewrite (Hyes Hc).
  - by rewrite (Hno Hc).
Qed.

Lemma detect_state_scores :
  score_states matchTemplate (template_matcher self) screen_image
               (state_definitions self) []
  = Return (omap (rule_entry matchTemplate (template_matcher self) screen_image)
                 (state_definitions self)).
Proof.
  rewrite score_states_spec; [done|done|done|]. by intros k _ ?%elem_of_nil.
Qed.

Lemma detect_state_no_candidate :
  (∀ s rule, (s, rule) ∈ state_definitions self → ¬ is_candidate rule) →
  detect_state matchTemplate self screen_image = Return UNKNOWN.
Proof.
  intros Hnone. unfold detect_state. rewrite detect_state_scores.
  destruct (omap _ _) as [|x l] eqn:Ho; [done|].
  assert (x ∈ omap (rule_entry matchTemplate (template_matcher self) screen_image)
                   (state_definitions self)) as Hx by (rewrite Ho; by left).
  apply list_elem_of_omap in Hx as ([s rule] & Hin & He).
  destruct (rule_entry_candidate s rule Hin) as [_ Hno].
  rewrite Hno in He; [done|]. by eapply Hnone.
Qed.

Lemma detect_state_some_candidate s0 rule0 :
  (s0, rule0) ∈ state_definitions self → is_candidate rule0 →
  ∃ d1 S rule d2,
    state_definitions self = d1 ++ (S, rule) :: d2 ∧
    detect_state matchTemplate self screen_image = Return S ∧
    is_candidate rule ∧
    (∀ s' rule', (s', rule') ∈ d1 → is_candidate rule' → number (average rule') →
                 (average rule' <? average rule)%float = true) ∧
    (∀ s' rule', (s', rule') ∈ d2 → is_candidate rule' →
                 (average rule <? average rule')%float = false).
Proof.
  intros Hin0 Hc0. unfold detect_state. rewrite detect_state_scores.
  destruct (omap _ _) as [|first others] eqn:Ho.
  { exfalso. destruct (rule_entry_candidate s0 rule0 Hin0) as [Hyes _].
    assert ((s0, average rule0) ∈ omap (rule_entry matchTemplate (template_matcher self)
              screen_image) (state_definitions self)) as Hx
      by (apply list_elem_of_omap; exists (s0, rule0); auto).
    rewrite Ho in Hx. by apply elem_of_nil in Hx. }
  destruct (max_by_confidence_spec first others) as (l1 & l2 & Heq & Hlt & Hle).
  rewrite Heq in Ho.
  destruct (omap_split _ _ _ _ _ Ho) as (d1 & [S rule] & d2 & Hdefs & H1 & He & H2).
  assert (∀ s' rule', (s', rule') ∈ state_definitions self → is_candidate rule' →
            rule_entry matchTemplate (template_matcher self) screen_image (s', rule')
            = Some (s', average rule')) as Hyes
    by (intros s' rule' Hin' Hc'; by apply rule_entry_candidate).
  assert ((S, rule) ∈ state_definitions self) as HinS
    by (rewrite Hdefs; apply elem_of_app; right; by left).
  assert (is_candidate rule) as HcS.
  { destruct (candidate_dec matchTemplate (template_matcher self) screen_image rule)
      as [Hc|Hc]; [done|].
    destruct (rule_entry_candidate S rule HinS) as [_ Hno].
    rewrite (Hno Hc) in He. done. }
  rewrite (Hyes S rule HinS HcS) in He. injection He as He.
  exists d1, S, rule, d2. rewrite <- He in *. simpl. split_and!; [done|done|done| |].
  - intros s' rule' Hin' Hc'. apply (Hlt (s', average rule')).
    rewrite <- H1. apply list_elem_of_omap. exists (s', rule'). split; [done|].
    apply Hyes; [|done]. rewrite Hdefs. apply elem_of_app. by left.
  - intros s' rule' Hin' Hc'. apply (Hle (s', average rule')).
    rewrite <- H2. apply list_elem_of_omap. exists (s', rule'). split; [done|].
    apply Hyes; [|done]. rewrite Hdefs. apply elem_of_app. right. by right.
Qed.
End detect_claim.


Lemma cv2_const_total score : cv2_total (cv2_const score).
Proof. intros image template method _ _. eexists. split; [done|simpl; lia]. Qed.



(** The averages are the rounded ones.  Two rules whose templates score
    [1] and [2^-60], and [1] and [2^-59]: both sums round to [1], both
    averages are [0.5], and the tie goes to the rule registered first,
    although the exact average of the second rule is the larger one. *)
Example detect_state_rounded_tie :
  let tile (n : nat) := solid n n (10, 20, 30)%Z in
  let tm := mkTemplateMatcher
              (<["a" := tile 1]> (<["b" := tile 2]> (<["c" := tile 3]> {["d" := tile 4]}))) in
  let cv2 := fun (_ template : Image) (_ : MatchMethod) =>
    Some (surface_of_rows
            [[match (shape template).1 with
              | 2 => 0x1p-60 | 4 => 0x1p-59 | _ => 1
              end]]%float) in
  let home := mkStateDefinition ["a"; "b"] 0 true in
  let shop := mkStateDefinition ["c"; "d"] 0 true in
  let self := mkStateDetector tm [(HOME_SCREEN, home); (SHOP, shop)] in
  avg_confidence cv2 tm (tile 4) home = 0.5%float ∧
  avg_confidence cv2 tm (tile 4) shop = 0.5%float ∧
  detect_state cv2 self (tile 4) = Return HOME_SCREEN.
Proof. intros. split_and!; vm_compute; reflexivity. Qed.

(** ** The executor: action descriptors and navigation *)

(** C3 (the code departs from the claim).  The descriptors the state manager
    registers are ["click_template:X"] and ["wait:N"].  For ["wait:2.0"] the
    executor captures a frame, logs "Unknown action" and returns [False]:
    nothing sleeps and the clock does not move.  For
    ["click_template:home/shop_icon"] it strips the six characters of
    ["click_"] and looks up ["template:home/shop_icon"], which is not the
    identifier ["home/shop_icon"] the descriptor names: with that template
    loaded and matching the frame perfectly, the action still ends in the
    warning "Template not found" and no click. *)
Theorem execute_action_descriptors
    (matchTemplate : Image → Image → MatchMethod → option Surface)
    (uniform : nat → Q → Q → Q) (screen : nat → Image) (sm : StateManager)
    (defs : list (GameState * StateDefinition)) (ic : InputController) (w : World) :
  let icon := solid 2 2 (10, 20, 30)%Z in
  let tm := mkTemplateMatcher {["home/shop_icon" := icon]} in
  let app := mkNikkeAutomation sm (mkStateDetector tm defs) ic w in
  let after (e : Event) :=
    mkNikkeAutomation sm (mkStateDetector tm defs) ic
      (mkWorld (S (captured w)) (drawn w) (clock w) (events w ++ [e])) in
  Main._execute_action matchTemplate uniform screen "wait:2.0" app
    = (after (Log WARNING "Unknown action: wait:2.0"), Return false) ∧
  String.substring 6 (String.length "click_template:home/shop_icon" - 6)
                   "click_template:home/shop_icon" = "template:home/shop_icon" ∧
  Main._execute_action matchTemplate uniform screen "click_template:home/shop_icon" app
    = (after (Log WARNING
                "Template not found for action: click_template:home/shop_icon"),
       Return false) ∧
  find_one (cv2_const 1) tm icon "home/shop_icon" EXACT 0.7
    = Return (Some (mkTemplateMatch (0, 0)%Z (2, 2)%Z 1%float "home/shop_icon" EXACT)).
Proof.
  intros. split_and!.
  - reflexivity.
  - reflexivity.
  - reflexivity.
  - vm_compute. reflexivity.
Qed.

Lemma manager_update_state_current sm new_state now :
  current_state (update_state sm new_state now).2 = new_state.
Proof. unfold update_state. case_decide; simpl; congruence. Qed.

Lemma manager_update_state_transitions sm s now :
  transitions (update_state sm s now).2 = transitions sm.
Proof. unfold update_state. by case_decide. Qed.

Lemma manager_update_state_previous sm new_state now :
  new_state ≠ current_state sm →
  previous_state (update_state sm new_state now).2 = Some (current_state sm).
Proof. intros Hne. unfold update_state. by rewrite decide_False by done. Qed.

(** After [NikkeAutomation.update_state] the manager's current state is the
    state just detected. *)
Lemma update_state_current matchTemplate screen app app' detected :
  Main.update_state matchTemplate screen app = (app', Return detected) →
  current_state (state_manager app') = detected.
Proof.
  unfold Main.update_state, Main.bind, Main.capture, Main.lift, Main.ret. simpl.
  destruct (detect_state _ _ _) as [d|]; [|done].
  intros [= <- <-]. simpl. apply manager_update_state_current.
Qed.

(** [NikkeAutomation.update_state] is: capture a frame, detect its state,
    record it in the manager at the current time. *)
Lemma update_state_detects matchTemplate screen app detected :
  detect_state matchTemplate (state_detector app) (screen (captured (world app)))
    = Return detected →
  Main.update_state matchTemplate screen app
  = ({| state_manager :=
          (update_state (state_manager app) detected (clock (world app))).2;
        state_detector := state_detector app;
        input_controller := input_controller app;
        world := {| captured := S (captured (world app));
                    drawn := drawn (world app);
                    clock := clock (world app);
                    events := events (world app) |} |},
     Return detected).
Proof.
  intros Hd. unfold Main.update_state, Main.bind, Main.capture, Main.lift, Main.ret.
  simpl. by rewrite Hd.
Qed.

Lemma sleep_returns seconds app :
  (0 <= seconds)%Q →
  Main.sleep seconds app
  = ({| state_manager := state_manager app;
        state_detector := state_detector app;
        input_controller := input_controller app;
        world := {| captured := captured (world app);
                    drawn := drawn (world app);
                    clock := (clock (world app) + seconds)%Q;
                    events := events (world app) ++ [Sleep seconds] |} |},
     Return tt).
Proof.
  intros Hs. unfold Main.sleep. rewrite (proj2 (Qltb_ge _ _) Hs). reflexivity.
Qed.

Lemma sleep_raises seconds app :
  (seconds < 0)%Q → Main.sleep seconds app = (app, Raise).
Proof.
  intros Hs. unfold Main.sleep. by rewrite (proj2 (Qltb_lt _ _) Hs).
Qed.

Lemma Qle_plus_nonneg (c d : Q) : (0 <= d)%Q → (c <= c + d)%Q.
Proof.
  intros Hd. rewrite <- (Qplus_0_r c) at 1. by apply Qplus_le_r.
Qed.

(** What one action does, case by case. *)
Lemma execute_action_outcome matchTemplate uniform screen action_name app :
  ∃ b app' new,
    Main._execute_action matchTemplate uniform screen action_name app
      = (app', Return b) ∧
    state_manager app' = state_manager app ∧
    state_detector app' = state_detector app ∧
    captured (world app') = S (captured (world app)) ∧
    (clock (world app) <= clock (world app'))%Q ∧
    events (world app') = events (world app) ++ new ∧
    if b then
      String.prefix "click_" action_name = true ∧
      ∃ m, action_match matchTemplate app (screen (captured (world app))) action_name
             = Return (Some m) ∧
           new = click_events uniform app m ∧
           (0 <= delay_before_move uniform app)%Q ∧
           (0 <= delay_before_click uniform app)%Q ∧
           clock (world app')
           = (clock (world app) + delay_before_move uniform app
              + delay_before_click uniform app)%Q
    else
      Forall (fun e => ¬ is_click e) new ∧ ∃ e, last new = Some e ∧ is_log e.
Proof.
  unfold Main._execute_action, Main.try_except, Main.bind at 1, Main.capture.
  unfold action_match, find_one.
  destruct (String.prefix "click_" action_name) eqn:Hprefix.
  - unfold Main.bind at 1, Main.lift. cbn [state_detector].
    destruct (find_template _ _ _ _ _ _ _ _) as [[m|]|] eqn:Hf.
    + (* the template is found: the click, unless a delay is negative *)
      unfold Main.bind at 1, Main.click_template.
      destruct (center m) as [cx cy] eqn:Hcenter. rewrite !Z.add_0_r.
      unfold Main.click, Main.move_to, Main._get_move_duration, Main._random_delay,
        Main.random_uniform, Main.stamp_last_action, Main.sleep, Main.log, Main.emit,
        Main.raise, Main.ret, Main.with_world, Main.bind.
      cbn [world drawn input_controller min_delay max_delay move_duration_range
           captured clock events state_manager state_detector].
      fold (delay_before_move uniform app). fold (move_duration uniform app).
      destruct (Qltb (delay_before_move uniform app) 0) eqn:Hd1.
      { eexists false, _, [_]. cbn [world clock events captured state_manager
          state_detector]. split_and!; try reflexivity.
        - apply Qle_refl.
        - repeat constructor. simpl. tauto.
        - eexists. split; [reflexivity|exact I]. }
      apply Qltb_ge in Hd1.
      cbn [world drawn input_controller min_delay max_delay move_duration_range
           captured clock events state_manager state_detector].
      fold (delay_before_click uniform app).
      destruct (Qltb (delay_before_click uniform app) 0) eqn:Hd2.
      { eexists false, _, [_; _; _].
        cbn [world clock events captured state_manager state_detector].
        split_and!; try reflexivity.
        - by apply Qle_plus_nonneg.
        - by rewrite <- !app_assoc.
        - repeat constructor; simpl; tauto.
        - eexists. split; [reflexivity|exact I]. }
      apply Qltb_ge in Hd2.
      eexists true, _, _.
      cbn [world clock events captured state_manager state_detector].
      split_and!; try reflexivity.
      * eapply Qle_trans; by apply Qle_plus_nonneg.
      * by rewrite <- !app_assoc.
      * exists m. unfold click_events. rewrite Hcenter. by split_and!.
    + eexists false, _, [_]. split_and!; try reflexivity.
      * apply Qle_refl.
      * repeat constructor. simpl. tauto.
      * eexists. split; [reflexivity|exact I].
    + eexists false, _, [_]. split_and!; try reflexivity.
      * apply Qle_refl.
      * repeat constructor. simpl. tauto.
      * eexists. split; [reflexivity|exact I].
  - eexists false, _, [_]. split_and!; try reflexivity.
    + apply Qle_refl.
    + repeat constructor. simpl. tauto.
    + eexists. split; [reflexivity|exact I].
Qed.

(** The action loop never raises; it captures one frame per action and
    leaves the manager and the detector alone, and the clock does not go
    back. *)
Lemma run_actions_world matchTemplate uniform screen actions app :
  ∃ app1, Main.run_actions matchTemplate uniform screen actions app = (app1, Return tt) ∧
          captured (world app1) = captured (world app) + length actions ∧
          (clock (world app) <= clock (world app1))%Q ∧
          state_manager app1 = state_manager app ∧
          state_detector app1 = state_detector app.
Proof.
  revert app. induction actions as [|a actions IH]; intros app; simpl.
  - exists app. split_and!; [done|lia|apply Qle_refl|done|done].
  - unfold Main.bind.
    destruct (execute_action_outcome matchTemplate uniform screen a app)
      as (b & app' & new & -> & Hm & Hd & Hc & Hk & _).
    destruct (IH app') as (app1 & -> & Hc1 & Hk1 & Hm1 & Hd1).
    exists app1. split_and!; [done|lia|by eapply Qle_trans|congruence|congruence].
Qed.

(** A hop whose duration is not negative: the actions, the sleep, and the
    re-detection in the frame captured next. *)
Lemma hop_detects matchTemplate uniform screen transition app new_state :
  (0 <= expected_duration transition)%Q →
  let app2 := (Main.run_actions matchTemplate uniform screen
                 (action_sequence transition) app).1 in
  detect_state matchTemplate (state_detector app2) (screen (captured (world app2)))
    = Return new_state →
  Main.hop matchTemplate uniform screen transition app
  = (after_hop app2 transition new_state, Return new_state).
Proof.
  intros Hd app2 Hdetect. subst app2. unfold Main.hop, Main.bind at 1.
  destruct (run_actions_world matchTemplate uniform screen
              (action_sequence transition) app) as (app1 & Hrun & _).
  rewrite Hrun in *. cbn [fst] in Hdetect.
  unfold Main.bind. rewrite sleep_returns by done.
  rewrite (update_state_detects matchTemplate screen _ new_state); [reflexivity|].
  exact Hdetect.
Qed.

Lemma hop_current matchTemplate uniform screen transition app app' detected :
  Main.hop matchTemplate uniform screen transition app = (app', Return detected) →
  current_state (state_manager app') = detected.
Proof.
  unfold Main.hop, Main.bind.
  destruct (Main.run_actions _ _ _ _ app) as [a1 [[]|]]; [|done].
  destruct (Main.sleep _ a1) as [a2 [[]|]]; [|done].
  apply update_state_current.
Qed.

Lemma walk_aborts matchTemplate uniform screen pre transition post app0 app1 app2 new_state :
  Main.walk matchTemplate uniform screen pre app0 = (app1, Return true) →
  Main.hop matchTemplate uniform screen transition app1 = (app2, Return new_state) →
  new_state ≠ to_state transition →
  Main.walk matchTemplate uniform screen (pre ++ transition :: post) app0
  = ((Main.log WARNING
        ("Expected to reach " ++ GameState_str (to_state transition)
         ++ ", but got " ++ GameState_str new_state ++ " instead") app2).1,
     Return false).
Proof.
  intros Hpre Hhop Hne. revert app0 Hpre.
  induction pre as [|t pre IH]; intros app0 Hpre; simpl in *.
  - injection Hpre as ->. unfold Main.bind. rewrite Hhop.
    rewrite decide_True by done. reflexivity.
  - unfold Main.bind in *. destruct (Main.hop _ _ _ t app0) as [a [s|]]; [|done].
    destruct (decide (s ≠ to_state t)).
    + simpl in Hpre. discriminate.
    + by apply IH.
Qed.

(** C2. Along the path [navigate_to] executes, let the hops before a
    transition have verified, and let [app2] be the automation that
    transition's actions leave.  When the transition's duration is not
    negative and the detector, run on the frame captured after the sleep,
    reports a state other than the transition's [to_state], the call returns
    [False] and leaves the automation as [after_mismatch] describes: the
    sleep took place, exactly one more frame was captured, the manager has
    recorded the state just detected, the warning is logged, and nothing of
    the transitions that remained in the path took place.  The manager's
    current state is the state just detected, and the state it had before
    the hop, if another one, has become its previous state. *)
Theorem navigate_to_aborts
    (matchTemplate : Image → Image → MatchMethod → option Surface)
    (uniform : nat → Q → Q → Q) (screen : nat → Image)
    (app : NikkeAutomation) (target : GameState)
    (app0 : NikkeAutomation) (current : GameState)
    (pre : Path) (transition : StateTransition) (post : Path)
    (app1 : NikkeAutomation) (new_state : GameState) :
  Main.update_state matchTemplate screen app = (app0, Return current) →
  current ≠ target →
  find_path (state_manager app0) target = Some (pre ++ transition :: post) →
  Main.walk matchTemplate uniform screen pre app0 = (app1, Return true) →
  (0 <= expected_duration transition)%Q →
  let app2 := (Main.run_actions matchTemplate uniform screen
                 (action_sequence transition) app1).1 in
  detect_state matchTemplate (state_detector app2) (screen (captured (world app2)))
    = Return new_state →
  new_state ≠ to_state transition →
  let final := after_mismatch app2 transition new_state in
  Main.navigate_to matchTemplate uniform screen target app = (final, Return false) ∧
  current_state (state_manager final) = new_state ∧
  (new_state ≠ current_state (state_manager app1) →
   previous_state (state_manager final) = Some (current_state (state_manager app1))).
Proof.
  intros Hupd Hcur Hpath Hpre Hd app2 Hdetect Hne final.
  pose proof (hop_detects matchTemplate uniform screen transition app1 new_state
                Hd Hdetect) as Hhop.
  split_and!.
  - unfold Main.navigate_to, Main.bind at 1. rewrite Hupd.
    rewrite decide_False by done. unfold Main.bind at 1. rewrite Hpath.
    destruct (pre ++ transition :: post) as [|t rest] eqn:Hp; [by destruct pre|].
    rewrite <- Hp. by rewrite (walk_aborts _ _ _ _ _ _ _ _ _ _ Hpre Hhop Hne).
  - apply manager_update_state_current.
  - intros Hstale. subst final. cbn [after_mismatch after_hop state_manager].
    destruct (run_actions_world matchTemplate uniform screen
                (action_sequence transition) app1) as (a & Hrun & _ & _ & Hm & _).
    assert (state_manager app2 = state_manager app1) as Hsm
      by (subst app2; by rewrite Hrun).
    rewrite Hsm. by apply manager_update_state_previous.
Qed.

Lemma navigate_to_aborts_witness :
  let tile := solid 3 3 (10, 20, 30)%Z in
  let tAB := mkStateTransition UNKNOWN BATTLE
               ["click_template:battle/start"; "wait:1.0"] 2%Q in
  let tBC := mkStateTransition BATTLE INVENTORY ["click_template:common/bag"] 1%Q in
  let app := mkNikkeAutomation
               (at_state UNKNOWN (two_edges UNKNOWN BATTLE INVENTORY tAB tBC))
               (StateDetector_init (mkTemplateMatcher {["shop/shop_title" := tile]}))
               InputController_init
               (mkWorld 0 0 0%Q []) in
  let uniform := fun (_ : nat) (a _ : Q) => a in
  let screen := fun n : nat => if n =? 0 then solid 2 2 (0, 0, 0)%Z
                               else solid 4 4 (10, 20, 30)%Z in
  let r := Main.navigate_to (cv2_const 0.9) uniform screen INVENTORY app in
  r.2 = Return false ∧
  current_state (state_manager r.1) = SHOP ∧
  previous_state (state_manager r.1) = Some UNKNOWN ∧
  captured (world r.1) = 4 ∧
  clock (world r.1) = (0 + 2)%Q.
Proof.
  intros tile tAB tBC app uniform screen r.
  pose (app0 := (Main.update_state (cv2_const 0.9) screen app).1).
  destruct (navigate_to_aborts (cv2_const 0.9) uniform screen app INVENTORY app0 UNKNOWN
              [] tAB [tBC] app0 SHOP) as (Hnav & Hcur & Hprev).
  - vm_compute. reflexivity.
  - discriminate.
  - vm_compute. reflexivity.
  - reflexivity.
  - vm_compute. discriminate.
  - vm_compute. reflexivity.
  - discriminate.
  - subst r. rewrite Hnav. split_and!.
    + reflexivity.
    + exact Hcur.
    + apply Hprev. discriminate.
    + reflexivity.
    + reflexivity.
Defined.

(** * Further properties of the code

    ** The state manager *)

(** X1. [can_transition_to] decides reachability in the transition graph:
    it is [True] exactly when some chain of registered transitions leads
    from the current state to the target (the empty chain included). *)
Theorem can_transition_to_iff_route (sm : StateManager) (target : GameState) :
  can_transition_to sm target = true
  ↔ ∃ q, route (transitions sm) (current_state sm) target q.
Proof.
  unfold can_transition_to. split.
  - destruct (find_path sm target) as [p|] eqn:Hp; [|done].
    intros _. exists p. by apply find_path_sound.
  - intros [q Hq]. by destruct (find_path_complete _ _ _ Hq) as (p & -> & _).
Qed.

Lemma consistent_init : consistent (transitions StateManager_init).
Proof.
  unfold StateManager_init, _register_default_transitions.
  repeat apply register_transition_consistent.
  intros a b tr Hin. by apply elem_of_nil in Hin.
Qed.

Lemma wf_init : Dict.wf (transitions StateManager_init).
Proof.
  unfold Dict.wf. apply NoDup_ListNoDup. vm_compute.
  repeat (constructor; [simpl; intuition discriminate|]). constructor.
Qed.

Lemma after_call_transitions sm c :
  transitions (after_call sm c) = transitions sm ∨
  ∃ a b acts d, transitions (after_call sm c)
                = Dict.set (a, b) (mkStateTransition a b acts d) (transitions sm).
Proof.
  destruct c as [new_state now|a b acts d|target]; simpl.
  - left. unfold update_state. by case_decide.
  - right. by exists a, b, acts, d.
  - left. by destruct (find_path sm target).
Qed.

Lemma dict_keys_set_incl {K V} `{EqDecision K} (k k0 : K) (v : V) (d : list (K * V)) :
  k0 ∈ Dict.keys d → k0 ∈ Dict.keys (Dict.set k v d).
Proof.
  intros Hin. destruct (decide (k ∈ Dict.keys d)) as [Hk|Hk].
  - by rewrite dict_keys_set_in.
  - rewrite dict_keys_set_notin by done. apply elem_of_app. by left.
Qed.

(** X2. Whatever calls are made on a freshly constructed manager, its graph
    stays a well-formed dictionary of edges: no ordered pair occurs twice,
    every stored transition carries the pair it is stored under in its
    [from_state] and [to_state], and no registered pair ever disappears (the
    five default pairs included). *)
Theorem transitions_invariant (calls : list Call) (c : Call) :
  let sm := foldl after_call StateManager_init calls in
  Dict.wf (transitions sm) ∧
  consistent (transitions sm) ∧
  (∀ k, k ∈ Dict.keys (transitions sm) →
        k ∈ Dict.keys (transitions (after_call sm c))) ∧
  (∀ k, k ∈ [(HOME_SCREEN, SHOP); (SHOP, HOME_SCREEN); (POPUP, UNKNOWN);
             (ERROR, HOME_SCREEN); (UNKNOWN, HOME_SCREEN)] →
        k ∈ Dict.keys (transitions sm)).
Proof.
  intros sm.
  assert (Hstep : ∀ s c' k, k ∈ Dict.keys (transitions s) →
                            k ∈ Dict.keys (transitions (after_call s c'))).
  { intros s c' k Hk. destruct (after_call_transitions s c') as [->|(a & b & acts & d & ->)];
      [done|by apply dict_keys_set_incl]. }
  assert (Dict.wf (transitions sm) ∧ consistent (transitions sm) ∧
          ∀ k, k ∈ Dict.keys (transitions StateManager_init) →
               k ∈ Dict.keys (transitions sm)) as (Hwf & Hcons & Hkeep).
  { subst sm. induction calls as [|c' calls IH] using rev_ind.
    - split_and!; [apply wf_init|apply consistent_init|done].
    - rewrite foldl_app. simpl. destruct IH as (Hwf & Hcons & Hkeep).
      set (s := foldl after_call StateManager_init calls) in *.
      split_and!.
      + destruct (after_call_transitions s c') as [->|(a & b & acts & d & ->)];
          [done|by apply dict_wf_set].
      + destruct c' as [new_state now|a b acts d|target]; simpl.
        * unfold update_state. by case_decide.
        * by apply register_transition_consistent.
        * by destruct (find_path s target).
      + intros k Hk. by apply Hstep, Hkeep. }
  split_and!; [done|done|by apply Hstep|].
  intros k Hk. apply Hkeep. vm_compute. exact Hk.
Qed.

(** X3. The history follows the current state: in every manager reached from
    a fresh one, either nothing was ever recorded and the manager still is in
    its initial state ([UNKNOWN], no previous state, timestamp 0), or the
    last history entry is the current state together with the dwell-start
    timestamp, and a previous state is set. *)
Theorem history_tracks_current (calls : list Call) :
  let sm := foldl after_call StateManager_init calls in
  (state_history sm = [] ∧ current_state sm = UNKNOWN ∧
   previous_state sm = None ∧ stable_state_time sm = 0%Q) ∨
  (last (state_history sm) = Some (current_state sm, stable_state_time sm) ∧
   is_Some (previous_state sm)).
Proof.
  intros sm. subst sm. induction calls as [|c calls IH] using rev_ind.
  - by left.
  - rewrite foldl_app. simpl.
    set (s := foldl after_call StateManager_init calls) in *.
    destruct c as [new_state now|a b acts d|target]; simpl.
    + unfold update_state. case_decide; [done|]. simpl. right.
      split; [by rewrite last_snoc|by eexists].
    + done.
    + by destruct (find_path s target).
Qed.

(** X4. A second [update_state] with the same state changes nothing: it
    returns [False] and the manager is the one the first call left, so a
    state that is detected again and again is recorded once. *)
Theorem update_state_twice (sm : StateManager) (s : GameState) (t1 t2 : Q) :
  update_state (update_state sm s t1).2 s t2
  = (false, (update_state sm s t1).2).
Proof.
  unfold update_state at 1. rewrite manager_update_state_current.
  by rewrite decide_True.
Qed.

Lemma route_app items a v b p1 p2 :
  route items a v p1 → route items v b p2 → route items a b (p1 ++ p2).
Proof.
  intros H1. induction 1 as [|v w u tr q Hq IH Hin].
  - by rewrite app_nil_r.
  - rewrite app_assoc. eapply route_snoc; [by apply IH|done].
Qed.

(** The states a route passes through, start and end included: the state
    at position [i] splits the route into its first [i] hops and the rest. *)
Lemma route_states items a b p :
  route items a b p →
  ∃ vs : list GameState, length vs = S (length p) ∧
    ∀ i v, vs !! i = Some v →
           route items a v (take i p) ∧ route items v b (drop i p).
Proof.
  induction 1 as [|a w v tr p Hp IH Hin].
  - exists [a]. split; [done|]. intros [|i] v; [|done]. intros [= <-].
    split; constructor.
  - destruct IH as (vs & Hlen & Hvs). exists (vs ++ [v]). split.
    + rewrite !length_app. simpl. lia.
    + intros i x Hx. destruct (decide (i < length vs)) as [Hi|Hi].
      * rewrite lookup_app_l in Hx by done. destruct (Hvs i x Hx) as [H1 H2].
        rewrite take_app_le, drop_app_le by lia.
        split; [done|]. by econstructor.
      * assert (i = length vs) as ->.
        { apply lookup_lt_Some in Hx. rewrite length_app in Hx. simpl in Hx. lia. }
        rewrite lookup_app_r, Nat.sub_diag in Hx by lia. injection Hx as <-.
        rewrite take_ge, drop_ge by (rewrite length_app; simpl; lia).
        split; [by econstructor|constructor].
Qed.

(** Under [consistent], the states a route passes through are its start
    followed by the [to_state] of each of its transitions. *)
Lemma route_visits items a b p :
  consistent items → route items a b p →
  ∀ i v, (a :: (to_state <$> p)) !! i = Some v →
         route items a v (take i p) ∧ route items v b (drop i p).
Proof.
  intros Hcons. induction 1 as [|a w v tr p Hp IH Hin].
  - intros [|i] v; [|done]. intros [= <-]. split; constructor.
  - destruct (Hcons _ _ _ Hin) as [_ Hto].
    rewrite fmap_app. simpl. rewrite Hto.
    change (a :: (to_state <$> p) ++ [v]) with ((a :: (to_state <$> p)) ++ [v]).
    set (vs := a :: (to_state <$> p)) in *.
    assert (length vs = S (length p)) as Hlen
      by (unfold vs; simpl; by rewrite length_fmap).
    intros i x Hx. destruct (decide (i < length vs)) as [Hi|Hi].
    + rewrite lookup_app_l in Hx by done. destruct (IH i x Hx) as [H1 H2].
      rewrite take_app_le, drop_app_le by lia.
      split; [done|]. by econstructor.
    + assert (i = length vs) as ->.
      { apply lookup_lt_Some in Hx. rewrite length_app in Hx.
        change (length [v]) with 1 in Hx. lia. }
      rewrite lookup_app_r, Nat.sub_diag in Hx by lia. injection Hx as <-.
      rewrite Hlen.
      rewrite take_ge, drop_ge by (rewrite length_app; simpl; lia).
      split; [by econstructor|constructor].
Qed.

(** X20. A path returned by [find_path] has fewer transitions than there
    are game states, at most nine; and in a graph whose entries carry their
    own pairs (as every graph built by [register_transition] does) it visits
    no state twice: the current state and the [to_state]s of its transitions
    are pairwise distinct. *)
Theorem find_path_length (sm : StateManager) (target : GameState) (p : Path) :
  find_path sm target = Some p →
  length p < card GameState ∧
  (consistent (transitions sm) → NoDup (current_state sm :: (to_state <$> p))).
Proof.
  intros [Hroute Hmin]%find_path_sound. split.
  - destruct (decide (length p < card GameState)) as [|Hlong]; [done|]. exfalso.
    destruct (route_states _ _ _ _ Hroute) as (vs & Hlen & Hvs).
    destruct (list_pigeonhole vs (enum GameState)) as (i & j & x & Hij & Hi & Hj).
    { intros v _. apply elem_of_enum. }
    { change (length (enum GameState)) with (card GameState). lia. }
    destruct (Hvs i x Hi) as [Hpre _]. destruct (Hvs j x Hj) as [_ Hpost].
    pose proof (Hmin _ (route_app _ _ _ _ _ _ Hpre Hpost)) as Hle.
    apply lookup_lt_Some in Hj.
    rewrite length_app, length_take, length_drop in Hle. lia.
  - intros Hcons. apply NoDup_alt. intros i j x Hi Hj.
    pose proof (route_visits _ _ _ _ Hcons Hroute) as Hvs.
    assert (∀ i j, i < j →
              (current_state sm :: (to_state <$> p)) !! i = Some x →
              (current_state sm :: (to_state <$> p)) !! j = Some x → False) as Hlt.
    { intros i' j' Hij Hi' Hj'.
      destruct (Hvs i' x Hi') as [Hpre _]. destruct (Hvs j' x Hj') as [_ Hpost].
      pose proof (Hmin _ (route_app _ _ _ _ _ _ Hpre Hpost)) as Hle.
      apply lookup_lt_Some in Hj'. simpl in Hj'. rewrite length_fmap in Hj'.
      rewrite length_app, length_take, length_drop in Hle. lia. }
    destruct (Nat.lt_trichotomy i j) as [Hij|[Hij|Hij]]; [|done|].
    + by destruct (Hlt i j Hij Hi Hj).
    + by destruct (Hlt j i Hij Hj Hi).
Qed.

Lemma find_path_length_witness :
  let p := [mkStateTransition ERROR HOME_SCREEN
              ["click_template:common/confirm_button"; "wait:2.0"] 3%Q;
            mkStateTransition HOME_SCREEN SHOP ["click_template:home/shop_icon"] 2%Q] in
  length p < card GameState ∧ NoDup [ERROR; HOME_SCREEN; SHOP].
Proof.
  intros p.
  destruct (find_path_length (update_state StateManager_init ERROR 0%Q).2 SHOP p)
    as [Hlen Hnodup].
  - vm_compute. reflexivity.
  - split; [exact Hlen|]. apply Hnodup.
    rewrite manager_update_state_transitions. apply consistent_init.
Defined.

(** ** The matcher *)

Lemma minMaxLoc_Some (a : Surface) acc :
  minMaxLoc a = Some acc → extrema_of a (coords (shape a).1 (shape a).2) acc.
Proof.
  unfold minMaxLoc. destruct (coords (shape a).1 (shape a).2) as [|c rest]; [done|].
  intros [= <-]. apply (minMax_fold_extrema a rest [c]). simpl.
  split_and!; try done; try (by apply list_elem_of_singleton).
  intros c' ->%list_elem_of_singleton. split; apply ltb_irrefl.
Qed.

(** The location and the score both branches of [find_template] take from
    [cv2.minMaxLoc]. *)
Lemma best_cell (result : Surface) mn mx mnl mxl (meth : MatchMethod) :
  minMaxLoc result = Some (mn, mx, mnl, mxl) →
  let loc := if bool_decide (meth = SQDIFF) then mnl else mxl in
  let score := if bool_decide (meth = SQDIFF) then (1 - mn)%float else mx in
  loc.1 < (shape result).2 ∧ loc.2 < (shape result).1 ∧
  score = oriented meth (item result loc.2 loc.1) ∧
  unbeaten meth result (item result loc.2 loc.1).
Proof.
  intros Hmm. apply minMaxLoc_Some in Hmm as (Hmnl & Hmxl & Hmn & Hmx & Hall).
  destruct mnl as [xn yn], mxl as [xx yx].
  apply elem_of_coords in Hmnl as [? ?]. apply elem_of_coords in Hmxl as [? ?].
  simpl in *. unfold oriented, unbeaten. destruct (bool_decide (meth = SQDIFF)); simpl.
  - split_and!; [done|done|by rewrite Hmn|].
    intros x y Hx Hy. destruct (Hall (x, y)) as [Hlo _]; [by apply elem_of_coords|].
    simpl in Hlo. apply ltb_false_fle; [apply scores_numbers|apply scores_numbers|].
    by rewrite <- Hmn.
  - split_and!; [done|done|done|].
    intros x y Hx Hy. destruct (Hall (x, y)) as [_ Hhi]; [by apply elem_of_coords|].
    simpl in Hhi. apply ltb_false_fle; [apply scores_numbers|apply scores_numbers|].
    by rewrite <- Hmx.
Qed.

Lemma center_inside (m : TemplateMatch) :
  (0 ≤ width m → 0 ≤ height m →
   (top_left m).1 ≤ (center m).1 ≤ (bottom_right m).1 ∧
   (top_left m).2 ≤ (center m).2 ≤ (bottom_right m).2)%Z.
Proof.
  unfold width, height, center. simpl. intros Hw Hh.
  split; split; try (apply Z.div_le_lower_bound; lia);
    try (apply Z.div_le_upper_bound; lia).
Qed.

(** X5. A match returned by the single-match form of [find_template] has the
    requested name and method, a confidence not below the threshold, the
    width and height of the stored template, and a centre inside its own
    rectangle; its top-left corner is a cell of the score surface, so when
    that surface has the [(H-h+1) × (W-w+1)] shape of [cv2.matchTemplate]
    the whole rectangle lies inside the frame. *)
Theorem find_one_geometry
    (matchTemplate : Image → Image → MatchMethod → option Surface)
    (self : TemplateMatcher) (image : Image) (name : string)
    (meth : MatchMethod) (threshold : float) (m : TemplateMatch) :
  find_one matchTemplate self image name meth threshold = Return (Some m) →
  ∃ template result,
    templates self !! name = Some template ∧
    matchTemplate image template meth = Some result ∧
    match_of template name meth threshold result m ∧
    ((top_left m).1 ≤ (center m).1 ≤ (bottom_right m).1 ∧
     (top_left m).2 ≤ (center m).2 ≤ (bottom_right m).2)%Z ∧
    (shape result = ((shape image).1 - (shape template).1 + 1,
                     (shape image).2 - (shape template).2 + 1) →
     ((bottom_right m).1 ≤ Z.of_nat (shape image).2 ∧
      (bottom_right m).2 ≤ Z.of_nat (shape image).1)%Z).
Proof.
  unfold find_one, find_template.
  destruct (templates self !! name) as [template|]; [|done].
  case_bool_decide as Hfit; [done|].
  destruct (matchTemplate image template meth) as [result|] eqn:Hmt; [|done].
  unfold find_best.
  destruct (minMaxLoc result) as [[[[mn mx] mnl] mxl]|] eqn:Hmm; [|done].
  destruct (best_cell result mn mx mnl mxl meth Hmm) as (Hx & Hy & _ & _).
  destruct (_ <? threshold)%float eqn:Hlt; [done|].
  intros [= <-]. exists template, result.
  match goal with |- context [match_of _ _ _ _ _ ?m'] =>
    assert (match_of template name meth threshold result m') as Hm end.
  { unfold match_of, width, height. simpl.
    destruct (bool_decide (meth = SQDIFF)); split_and!; try done; lia. }
  split; [done|]. split; [done|]. split; [exact Hm|]. split.
  - destruct Hm as (_ & _ & _ & Hw & Hh & _).
    apply center_inside; [rewrite Hw|rewrite Hh]; lia.
  - intros Hshape. rewrite Hshape in Hx, Hy. simpl in *. lia.
Qed.

Lemma find_one_geometry_witness :
  let icon := solid 2 2 (10, 20, 30)%Z in
  let tm := mkTemplateMatcher {["icon" := icon]} in
  let frame := solid 3 4 (10, 20, 30)%Z in
  let surface := surface_of_rows [[0.1; 0.9; 0.3]; [0.2; 0.5; 0.4]]%float in
  let cv2 := fun (_ _ : Image) (_ : MatchMethod) => Some surface in
  let m := mkTemplateMatch (1, 0)%Z (3, 2)%Z 0.9%float "icon" EXACT in
  width m = 2%Z ∧ ((bottom_right m).1 ≤ 4 ∧ (bottom_right m).2 ≤ 3)%Z.
Proof.
  intros icon tm frame surface cv2 m.
  destruct (find_one_geometry cv2 tm frame "icon" EXACT 0.8 m)
    as (template & result & Ht & Hr & Hm & _ & Hin).
  - vm_compute. reflexivity.
  - injection Ht as <-. injection Hr as <-.
    destruct Hm as (_ & _ & _ & Hw & _). split; [exact Hw|].
    apply Hin. reflexivity.
Defined.

Lemma match_of_shape template name meth threshold (r1 r2 : Surface) m :
  shape r1 = shape r2 →
  match_of template name meth threshold r1 m →
  match_of template name meth threshold r2 m.
Proof. unfold match_of. by intros ->. Qed.

Lemma find_matches_shape n result template name meth threshold matches r :
  find_matches n result template name meth threshold matches = Return r →
  ∃ new, r = matches ++ new ∧ length new ≤ n ∧
         Forall (match_of template name meth threshold result) new.
Proof.
  revert result matches. induction n as [|n IH]; intros result matches; simpl.
  - intros [= <-]. exists []. by rewrite app_nil_r.
  - destruct (minMaxLoc result) as [[[[mn mx] mnl] mxl]|] eqn:Hmm; [|done].
    destruct (best_cell result mn mx mnl mxl meth Hmm) as (Hx & Hy & _ & _).
    destruct (_ <? threshold)%float eqn:Hlt.
    + intros [= <-]. exists []. rewrite app_nil_r. split_and!; [done|simpl; lia|done].
    + intros Hr.
      apply IH in Hr as (new & -> & Hlen & Hall).
      eexists (_ :: new). split_and!.
      * by rewrite <- app_assoc.
      * simpl. lia.
      * constructor.
        -- unfold match_of, width, height. simpl.
           destruct (bool_decide (meth = SQDIFF)); split_and!; try done; lia.
        -- eapply Forall_impl; [exact Hall|]. intros m. by apply match_of_shape.
Qed.

(** X6. The [multiple] form of [find_template] returns the empty list for an
    identifier that is not loaded and for a template larger than the frame;
    whenever it returns, the list holds at most [max_results] matches (none
    for a non-positive [max_results]), each with the requested name and
    method, a confidence not below the threshold, the template's width and
    height, and a top-left corner that is a cell of the score surface. *)
Theorem find_many_bounds
    (matchTemplate : Image → Image → MatchMethod → option Surface)
    (self : TemplateMatcher) (image : Image) (name : string)
    (meth : MatchMethod) (threshold : float) (max_results : Z) :
  (templates self !! name = None →
   find_many matchTemplate self image name meth threshold max_results = Return []) ∧
  (∀ template, templates self !! name = Some template →
     (shape template).1 > (shape image).1 ∨ (shape template).2 > (shape image).2 →
     find_many matchTemplate self image name meth threshold max_results = Return []) ∧
  (∀ ms, find_many matchTemplate self image name meth threshold max_results = Return ms →
     ms = [] ∨
     ∃ template result,
       templates self !! name = Some template ∧
       matchTemplate image template meth = Some result ∧
       (Z.of_nat (length ms) ≤ max_results)%Z ∧
       Forall (match_of template name meth threshold result) ms).
Proof.
  unfold find_many, find_template. split_and!.
  - by intros ->.
  - intros template -> Hbig. rewrite bool_decide_eq_true_2; [done|lia].
  - intros ms. destruct (templates self !! name) as [template|]; [|intros [= <-]; by left].
    case_bool_decide; [intros [= <-]; by left|].
    destruct (matchTemplate image template meth) as [result|] eqn:Hmt; [|done].
    intros Hr. apply find_matches_shape in Hr as (new & -> & Hlen & Hall).
    destruct new as [|m new]; [by left|]. right. exists template, result.
    split_and!; [done|done| |done]. simpl in *. lia.
Qed.

Lemma find_many_bounds_witness :
  let tm := mkTemplateMatcher {["icon" := solid 2 2 (10, 20, 30)%Z]} in
  let frame := solid 1 1 (10, 20, 30)%Z in
  find_many (cv2_const 1) tm frame "absent" EXACT 0.8 3 = Return [] ∧
  find_many (cv2_const 1) tm frame "icon" EXACT 0.8 3 = Return [].
Proof.
  intros tm frame.
  destruct (find_many_bounds (cv2_const 1) tm frame "absent" EXACT 0.8 3)
    as (Habsent & _ & _).
  destruct (find_many_bounds (cv2_const 1) tm frame "icon" EXACT 0.8 3)
    as (_ & Hbig & _).
  split.
  - apply Habsent. reflexivity.
  - apply (Hbig (solid 2 2 (10, 20, 30)%Z)); [reflexivity|]. left. simpl. lia.
Defined.

(** While the loop runs with a correlation method and a threshold [>= 0],
    no accepted match is below 0 or below a cell of the surface, so whatever
    is accepted next does not exceed it. *)
Lemma find_matches_descending n (result : Surface) template name meth threshold
    matches r :
  meth ≠ SQDIFF → fle 0 threshold →
  (∀ m, m ∈ matches →
        (confidence m <? 0)%float = false ∧
        ∀ x y, x < (shape result).2 → y < (shape result).1 →
               (confidence m <? item result y x)%float = false) →
  StronglySorted (fun m1 m2 => (confidence m1 <? confidence m2)%float = false) matches →
  find_matches n result template name meth threshold matches = Return r →
  StronglySorted (fun m1 m2 => (confidence m1 <? confidence m2)%float = false) r.
Proof.
  intros Hmeth Hthr. revert result matches.
  induction n as [|n IH]; intros result matches Hinv Hsorted; simpl.
  - by intros [= <-].
  - destruct (minMaxLoc result) as [[[[mn mx] mnl] mxl]|] eqn:Hmm; [|done].
    destruct (best_cell result mn mx mnl mxl meth Hmm) as (Hx & Hy & Hscore & Hmax).
    unfold oriented, unbeaten in Hscore, Hmax.
    rewrite (bool_decide_eq_false_2 _ Hmeth) in *.
    destruct (mx <? threshold)%float eqn:Hlt; [by intros [= <-]|].
    apply IH.
    + intros m [Hm| ->%list_elem_of_singleton]%elem_of_app.
      * destruct (Hinv m Hm) as [H0 Hcells]. split; [done|].
        intros x y Hx' Hy'. simpl. case_bool_decide; [done|by apply Hcells].
      * simpl. split; [by eapply not_below_zero|].
        intros x y Hx' Hy'. case_bool_decide; [by eapply not_below_zero|].
        rewrite Hscore.
        apply ltb_false_fle; [apply scores_numbers|apply scores_numbers|].
        by apply Hmax.
    + apply StronglySorted_app_2; [|done|repeat constructor].
      intros m1 m2 Hm1 ->%list_elem_of_singleton. simpl.
      rewrite Hscore. by apply (Hinv m1 Hm1).
Qed.

(** With a correlation method every confidence is a cell of a surface, hence
    a number. *)
Lemma find_matches_numbers n (result : Surface) template name meth threshold matches r :
  meth ≠ SQDIFF →
  Forall (fun m => number (confidence m)) matches →
  find_matches n result template name meth threshold matches = Return r →
  Forall (fun m => number (confidence m)) r.
Proof.
  intros Hmeth. revert result matches.
  induction n as [|n IH]; intros result matches Hnum; simpl.
  - by intros [= <-].
  - destruct (minMaxLoc result) as [[[[mn mx] mnl] mxl]|] eqn:Hmm; [|done].
    destruct (best_cell result mn mx mnl mxl meth Hmm) as (_ & _ & Hscore & _).
    unfold oriented in Hscore. rewrite (bool_decide_eq_false_2 _ Hmeth) in *.
    destruct (mx <? threshold)%float; [by intros [= <-]|].
    apply IH. apply Forall_app. split; [done|].
    constructor; [|constructor]. simpl. rewrite Hscore. apply scores_numbers.
Qed.

Lemma StronglySorted_numbers (ms : list TemplateMatch) :
  Forall (fun m => number (confidence m)) ms →
  StronglySorted (fun m1 m2 => (confidence m1 <? confidence m2)%float = false) ms →
  StronglySorted (fun m1 m2 => fle (confidence m2) (confidence m1)) ms.
Proof.
  intros Hnum. induction 1 as [|m ms Hsorted IH Hall]; [constructor|].
  apply Forall_cons in Hnum as [Hm Hnum]. constructor; [by apply IH|].
  clear IH Hsorted. induction Hall as [|m' ms Hm' Hall IH]; [constructor|].
  apply Forall_cons in Hnum as [Hn' Hnum]. constructor; [|by apply IH].
  by apply ltb_false_fle.
Qed.

(** X7. With a correlation method and a threshold that is at least zero the
    [multiple] form returns its matches best first: the confidence of a
    match is less than or equal to that of every match before it in the
    list. *)
Theorem find_many_best_first
    (matchTemplate : Image → Image → MatchMethod → option Surface)
    (self : TemplateMatcher) (image : Image) (name : string)
    (meth : MatchMethod) (threshold : float) (max_results : Z)
    (ms : list TemplateMatch) :
  meth ≠ SQDIFF → fle 0 threshold →
  find_many matchTemplate self image name meth threshold max_results = Return ms →
  StronglySorted (fun m1 m2 => fle (confidence m2) (confidence m1)) ms.
Proof.
  intros Hmeth Hthr. unfold find_many, find_template.
  destruct (templates self !! name) as [template|]; [|intros [= <-]; constructor].
  case_bool_decide; [intros [= <-]; constructor|].
  destruct (matchTemplate image template meth) as [result|]; [|done].
  intros Hr. apply StronglySorted_numbers.
  - eapply find_matches_numbers; [done| |exact Hr]. constructor.
  - eapply find_matches_descending; [done|done| | |exact Hr].
    + by intros m ?%elem_of_nil.
    + constructor.
Qed.

Lemma find_many_best_first_witness :
  let peaks : Surface :=
    numbers_only
      (mkArray (1, 41) (fun _ x => if x mod 10 =? 0 then 0.9%float else 0.1%float)) in
  let cv2 := fun (_ _ : Image) (_ : MatchMethod) => Some peaks in
  let tm := mkTemplateMatcher {["coin" := solid 3 3 (10, 20, 30)%Z]} in
  let at_x (x : Z) := mkTemplateMatch (x, 0)%Z (x + 3, 3)%Z 0.9%float "coin" EXACT in
  StronglySorted (fun m1 m2 => fle (confidence m2) (confidence m1))
                 [at_x 0%Z; at_x 10%Z; at_x 20%Z].
Proof.
  intros peaks cv2 tm at_x.
  apply (find_many_best_first cv2 tm (solid 3 43 (0, 0, 0)%Z) "coin" EXACT 0.8 3).
  - discriminate.
  - reflexivity.
  - vm_compute. reflexivity.
Defined.

Lemma separated_snoc matches m :
  separated matches →
  (∀ m1, m1 ∈ matches → ¬ in_zone m1 (top_left m)) →
  separated (matches ++ [m]).
Proof.
  intros Hsep Hnew i j m1 m2 Hij H1 H2.
  destruct (decide (j < length matches)) as [Hj|Hj].
  - rewrite lookup_app_l in H1 by lia. rewrite lookup_app_l in H2 by lia.
    exact (Hsep i j m1 m2 Hij H1 H2).
  - assert (j = length matches) as ->.
    { apply lookup_lt_Some in H2. rewrite length_app in H2. simpl in H2. lia. }
    rewrite lookup_app_l in H1 by lia.
    rewrite lookup_app_r, Nat.sub_diag in H2 by lia. simpl in H2. injection H2 as <-.
    apply Hnew. by eapply list_elem_of_lookup_2.
Qed.

Lemma zeroed_step (result : Surface) matches (lx ly : nat) (w h : Z) score name meth :
  lx < (shape result).2 → ly < (shape result).1 →
  zeroed result matches →
  let x := Z.of_nat lx in
  let y := Z.of_nat ly in
  zeroed (rectangle_0 result
            (Z.max 0 (x - mask_size), Z.max 0 (y - mask_size))
            (Z.min (Z.of_nat (shape result).2) (x + w + mask_size),
             Z.min (Z.of_nat (shape result).1) (y + h + mask_size)))
         (matches ++ [mkTemplateMatch (x, y) (x + w, y + h)%Z score name meth]).
Proof.
  intros Hlx Hly Hz x y m cx cy Hm Hcx Hcy Hzone. simpl in *.
  case_bool_decide as Hin; [done|].
  apply elem_of_app in Hm as [Hm|Hm]; [by eapply Hz|].
  apply list_elem_of_singleton in Hm. subst m.
  exfalso. apply Hin. unfold in_zone in Hzone. simpl in Hzone. unfold x, y. lia.
Qed.

Lemma find_matches_separated n result template name meth threshold matches r :
  meth ≠ SQDIFF → (0 <? threshold)%float = true →
  zeroed result matches → separated matches →
  find_matches n result template name meth threshold matches = Return r →
  separated r.
Proof.
  intros Hmeth Hthr. revert result matches.
  induction n as [|n IH]; intros result matches Hz Hsep; simpl.
  - by intros [= <-].
  - destruct (minMaxLoc result) as [[[[mn mx] mnl] mxl]|] eqn:Hmm; [|done].
    destruct (best_cell result mn mx mnl mxl meth Hmm) as (Hx & Hy & Hscore & _).
    unfold oriented in Hscore. rewrite (bool_decide_eq_false_2 _ Hmeth) in *.
    destruct (mx <? threshold)%float eqn:Hlt; [by intros [= <-]|].
    apply IH.
    + by apply zeroed_step.
    + apply separated_snoc; [done|]. intros m1 Hm1 Hzone. simpl in Hzone.
      specialize (Hz m1 mxl.1 mxl.2 Hm1 Hx Hy Hzone).
      rewrite <- Hscore in Hz. rewrite Hz in Hlt. by rewrite Hthr in Hlt.
Qed.

(** X8. What the mask does guarantee: with a correlation method and a
    positive threshold, no match returned by the [multiple] form has its
    top-left corner inside the masked zone of a match before it in the list
    (that match's rectangle widened by [mask_size] on every side); in
    particular no two returned matches share a top-left corner. *)
Theorem find_many_suppressed
    (matchTemplate : Image → Image → MatchMethod → option Surface)
    (self : TemplateMatcher) (image : Image) (name : string)
    (meth : MatchMethod) (threshold : float) (max_results : Z)
    (ms : list TemplateMatch) :
  meth ≠ SQDIFF → (0 <? threshold)%float = true →
  find_many matchTemplate self image name meth threshold max_results = Return ms →
  separated ms ∧
  (∀ i j m1 m2, i < j → ms !! i = Some m1 → ms !! j = Some m2 →
                (0 ≤ width m1)%Z → (0 ≤ height m1)%Z →
                top_left m1 ≠ top_left m2).
Proof.
  intros Hmeth Hthr Hr.
  assert (separated ms) as Hsep.
  { revert Hr. unfold find_many, find_template.
    destruct (templates self !! name) as [template|];
      [|intros [= <-] i j m1 m2 _ Hi; by rewrite lookup_nil in Hi].
    case_bool_decide; [intros [= <-] i j m1 m2 _ Hi; by rewrite lookup_nil in Hi|].
    destruct (matchTemplate image template meth) as [result|]; [|done].
    apply find_matches_separated; [done|done| |].
    - by intros m x y ?%elem_of_nil.
    - intros i j m1 m2 _ Hi. by rewrite lookup_nil in Hi. }
  split; [done|].
  intros i j m1 m2 Hij H1 H2 Hw Hh Heq.
  apply (Hsep i j m1 m2 Hij H1 H2). rewrite <- Heq.
  unfold in_zone, width, height, mask_size in *. lia.
Qed.

Lemma find_many_suppressed_witness :
  let m1 := mkTemplateMatch (6, 0)%Z (16, 10)%Z 0.95%float "tile" EXACT in
  let m2 := mkTemplateMatch (0, 0)%Z (10, 10)%Z 0.9%float "tile" EXACT in
  ¬ in_zone m1 (top_left m2) ∧ overlaps m1 m2.
Proof.
  intros m1 m2.
  pose (cv2_peaks := fun (_ _ : Image) (_ : MatchMethod) =>
    Some (surface_of_rows
            [[0.9; 0.1; 0.1; 0.1; 0.1; 0.1; 0.95]]%float)).
  destruct (find_many_suppressed cv2_peaks
              (mkTemplateMatcher {["tile" := solid 10 10 (10, 20, 30)%Z]})
              (solid 10 16 (10, 20, 30)%Z) "tile" EXACT 0.8 3 [m1; m2])
    as [Hsep _].
  - discriminate.
  - reflexivity.
  - vm_compute. reflexivity.
  - split.
    + apply (Hsep 0 1 m1 m2); [lia|reflexivity|reflexivity].
    + unfold overlaps. simpl. lia.
Defined.

Lemma find_all_loop_spec matchTemplate self image meth threshold k names results r :
  NoDup names → (∀ n, n ∈ names → results !! n = None) →
  find_all_loop matchTemplate self image meth threshold k names results = Return r →
  ∀ n ms, r !! n = Some ms ↔
    ((n ∉ names) ∧ results !! n = Some ms) ∨
    (n ∈ names ∧ ms ≠ [] ∧
     find_many matchTemplate self image n meth threshold k = Return ms).
Proof.
  unfold find_many. revert results.
  induction names as [|name rest IH]; intros results Hnd Hfresh; simpl.
  - intros [= <-] n ms. split.
    + intros Hn. left. split; [apply not_elem_of_nil|done].
    + intros [[_ Hn]|[Hn _]]; [done|by apply elem_of_nil in Hn].
  - apply NoDup_cons in Hnd as [Hname Hnd].
    destruct (find_template matchTemplate self image name meth threshold true k)
      as [matches|] eqn:Hfind; [|done].
    intros Hr n ms.
    assert (Hfresh' : ∀ n', n' ∈ rest →
              match matches with
              | [] => results
              | _ :: _ => <[name := matches]> results
              end !! n' = None).
    { intros n' Hn'. assert (n' ≠ name) by (by intros ->).
      destruct matches; [|rewrite lookup_insert_ne by done];
        apply Hfresh; by right. }
    rewrite (IH _ Hnd Hfresh' Hr n ms).
    destruct (decide (n = name)) as [->|Hne].
    + split.
      * intros [[Hn Hl]|[Hn _]]; [|done]. right. destruct matches as [|m matches'].
        -- rewrite Hfresh in Hl; [done|by left].
        -- rewrite lookup_insert_eq in Hl. injection Hl as <-.
           split_and!; [by left|done|done].
      * intros [[Hn _]|(_ & Hms & Hf)]; [exfalso; apply Hn; by left|].
        left. split; [done|].
        rewrite Hfind in Hf. injection Hf as <-.
        destruct matches; [done|]. by rewrite lookup_insert_eq.
    + assert (match matches with
              | [] => results
              | _ :: _ => <[name := matches]> results
              end !! n = results !! n) as ->
        by (destruct matches; [done|by rewrite lookup_insert_ne]).
      split.
      * intros [[Hn Hl]|(Hn & Hms & Hf)].
        -- left. split; [by apply not_elem_of_cons|done].
        -- right. split_and!; [by right|done|done].
      * intros [[Hn Hl]|(Hn & Hms & Hf)].
        -- apply not_elem_of_cons in Hn as [_ Hn]. by left.
        -- apply elem_of_cons in Hn as [?|Hn]; [done|]. by right.
Qed.

(** X9. [find_all_templates] returns exactly the identifiers with at least
    one hit, each with the list the [multiple] search for it returns: an
    identifier is a key of the result with list [ms] exactly when [ms] is
    non-empty and is what [find_template] in its [multiple] form returns for
    it. *)
Theorem find_all_templates_hits
    (matchTemplate : Image → Image → MatchMethod → option Surface)
    (self : TemplateMatcher) (image : Image) (meth : MatchMethod)
    (threshold : float) (k : Z) (r : gmap string (list TemplateMatch)) :
  find_all_templates matchTemplate self image meth threshold k = Return r →
  ∀ n ms, r !! n = Some ms ↔
          ms ≠ [] ∧ find_many matchTemplate self image n meth threshold k = Return ms.
Proof.
  intros Hr n ms. unfold find_all_templates in Hr.
  rewrite (find_all_loop_spec _ _ _ _ _ _ _ _ _ (NoDup_fst_map_to_list _)
             (fun n _ => lookup_empty n) Hr n ms).
  rewrite lookup_empty. split.
  - intros [[_ ?]|(_ & ? & ?)]; done.
  - intros [Hms Hf]. right. split_and!; [|done|done].
    destruct (templates self !! n) as [t|] eqn:Ht.
    + apply list_elem_of_fmap. exists (n, t). split; [done|].
      by apply elem_of_map_to_list.
    + exfalso. apply Hms. unfold find_many, find_template in Hf. rewrite Ht in Hf.
      by injection Hf as <-.
Qed.

Lemma find_all_templates_hits_witness :
  let tm := mkTemplateMatcher
              (<["banner" := solid 5 9 (0, 0, 0)%Z]>
                 {["icon" := solid 2 2 (10, 20, 30)%Z]}) in
  let frame := solid 2 2 (10, 20, 30)%Z in
  find_all_templates (cv2_const 1) tm frame EXACT 0.8 1
    = Return {["icon" := [mkTemplateMatch (0, 0)%Z (2, 2)%Z 1%float "icon" EXACT]]} ∧
  find_many (cv2_const 1) tm frame "icon" EXACT 0.8 1
    = Return [mkTemplateMatch (0, 0)%Z (2, 2)%Z 1%float "icon" EXACT].
Proof.
  intros tm frame.
  assert (find_all_templates (cv2_const 1) tm frame EXACT 0.8 1
    = Return {["icon" := [mkTemplateMatch (0, 0)%Z (2, 2)%Z 1%float "icon" EXACT]]}) as Hr
    by (vm_compute; reflexivity).
  split; [exact Hr|].
  apply (find_all_templates_hits _ _ _ _ _ _ _ Hr "icon").
  apply lookup_singleton_eq.
Defined.

(** X10. [load_template] fails without touching the store when the file is
    missing, when [cv2.imread] raises, and when the file cannot be decoded;
    it succeeds exactly when the file exists and decodes.  After a success
    the identifier (the given name, or the file's base name without
    extension) is bound to the decoded image and every other identifier is
    bound as before, so loading the same identifier again replaces the
    stored image. *)
Theorem load_template_store
    (isfile : string → bool) (imread : string → outcome (option Image))
    (stem : string → string)
    (self : TemplateMatcher) (path : string) (name : option string) :
  let r := load_template isfile imread stem self path name in
  let n := match name with Some n => n | None => stem path end in
  (r.1 = false → r.2 = self) ∧
  (r.1 = true ↔ isfile path = true ∧ ∃ t, imread path = Return (Some t)) ∧
  (∀ t, r.1 = true → imread path = Return (Some t) →
        templates r.2 !! n = Some t ∧
        (∀ n', n' ≠ n → templates r.2 !! n' = templates self !! n') ∧
        (∀ path' t', isfile path' = true → imread path' = Return (Some t') →
           templates (load_template isfile imread stem r.2 path' (Some n)).2 !! n
           = Some t')).
Proof.
  intros r n. subst r n. unfold load_template.
  destruct (isfile path) eqn:Hf; simpl.
  - destruct (imread path) as [[t|]|] eqn:Hi; simpl.
    + split_and!; [done| |].
      * split; [by eauto|done].
      * intros t' _ [= <-]. split_and!.
        -- apply lookup_insert_eq.
        -- intros n' Hn'. by rewrite lookup_insert_ne.
        -- intros path' t' -> ->. simpl. apply lookup_insert_eq.
    + split_and!; [done| |done]. split; [done|]. by intros [_ [t [=]]].
    + split_and!; [done| |done]. split; [done|]. by intros [_ [t [=]]].
  - split_and!; [done| |done]. split; [done|]. by intros [[=] _].
Qed.

Lemma load_template_store_witness :
  let icon := solid 2 2 (10, 20, 30)%Z in
  let isfile := fun p : string => bool_decide (p = "templates/home/shop_icon.png") in
  let imread := fun p : string => Return (Some icon) in
  let stem := fun p : string => "shop_icon" in
  let r := load_template isfile imread stem (mkTemplateMatcher ∅)
                         "templates/home/shop_icon.png" None in
  r.1 = true ∧ templates r.2 !! "shop_icon" = Some icon.
Proof.
  intros icon isfile imread stem r.
  destruct (load_template_store isfile imread stem (mkTemplateMatcher ∅)
              "templates/home/shop_icon.png" None) as (_ & Hok & Hbound).
  assert (r.1 = true) as Hr by (apply Hok; split; [reflexivity|by exists icon]).
  split; [exact Hr|]. by destruct (Hbound icon Hr eq_refl) as [Hn _].
Defined.
(** ** Capture statistics *)

(** X11. After any number of captures the statistics are those of the
    capture times seen: the count is their number; the total is their sum
    in doubles, added in order; once there is a capture the average is the
    total divided by the count in doubles; the maximum is zero or one of the
    capture times, it is not below zero, and no capture time exceeds it.
    (The rounded average can exceed the maximum: three captures of [0.1]
    average to [0.10000000000000002].) *)
Theorem performance_stats_invariant (times : list float) :
  let stats := foldl _update_performance_stats PerformanceStats_init times in
  total_captures stats = length times ∧
  total_time stats = foldl PrimFloat.add 0%float times ∧
  (times = [] ∨
   avg_capture_time stats
   = (total_time stats / float_of_nat (total_captures stats))%float) ∧
  (max_capture_time stats = 0%float ∨ max_capture_time stats ∈ times) ∧
  (max_capture_time stats <? 0)%float = false ∧
  Forall (fun t => (max_capture_time stats <? t)%float = false) times ∧
  (let three := foldl _update_performance_stats PerformanceStats_init [0.1; 0.1; 0.1]%float in
   max_capture_time three = 0.1%float ∧
   (max_capture_time three <? avg_capture_time three)%float = true).
Proof.
  intros stats. do 6 (try split); [..|by vm_compute]; subst stats;
    induction times as [|t times IH] using rev_ind;
    rewrite ?foldl_app; cbn [foldl _update_performance_stats total_captures total_time
                             avg_capture_time max_capture_time PerformanceStats_init];
    try set (mx := max_capture_time
                     (foldl _update_performance_stats PerformanceStats_init times)) in *.
  - done.
  - rewrite length_app, IH. simpl. lia.
  - done.
  - by rewrite IH.
  - by left.
  - by right.
  - by left.
  - destruct (mx <? t)%float.
    + right. apply elem_of_app. right. by left.
    + destruct IH as [IH|IH]; [by left|]. right. apply elem_of_app. by left.
  - apply ltb_irrefl.
  - destruct (mx <? t)%float eqn:E; [|done]. by eapply ltb_not_above.
  - constructor.
  - apply Forall_app. split.
    + eapply Forall_impl; [exact IH|]. intros t' Ht'. simpl in Ht'.
      destruct (mx <? t)%float eqn:E; [|done]. by eapply ltb_not_above.
    + constructor; [|constructor].
      destruct (mx <? t)%float eqn:E; [apply ltb_irrefl|done].
Qed.

(** ** The detector *)

(** X12. [register_state_definition] upserts: afterwards the state's rule is
    the one given and the other rules and the matcher are as before; a state
    that already had a rule keeps its place in the registration order (and so
    its priority when confidences tie), a new state goes last, and states
    stay unique. *)
Theorem register_state_definition_order (self : StateDetector) (state : GameState)
    (required : list string) (threshold : float) (all : bool) :
  let self' := register_state_definition self state required threshold all in
  Dict.get state (state_definitions self')
    = Some (mkStateDefinition required threshold all) ∧
  (∀ s, s ≠ state →
        Dict.get s (state_definitions self') = Dict.get s (state_definitions self)) ∧
  template_matcher self' = template_matcher self ∧
  (state ∈ Dict.keys (state_definitions self) →
   Dict.keys (state_definitions self') = Dict.keys (state_definitions self)) ∧
  (state ∉ Dict.keys (state_definitions self) →
   Dict.keys (state_definitions self') = Dict.keys (state_definitions self) ++ [state]) ∧
  (Dict.wf (state_definitions self) → Dict.wf (state_definitions self')).
Proof.
  simpl. split_and!.
  - apply dict_get_set_eq.
  - intros s Hs. by apply dict_get_set_ne.
  - done.
  - apply dict_keys_set_in.
  - apply dict_keys_set_notin.
  - apply dict_wf_set.
Qed.

Lemma register_state_definition_order_witness :
  let self := StateDetector_init (mkTemplateMatcher ∅) in
  Dict.keys (state_definitions
               (register_state_definition self SHOP ["shop/banner"] 0.9 true))
    = [HOME_SCREEN; BATTLE; SHOP; LOADING; ERROR] ∧
  Dict.keys (state_definitions
               (register_state_definition self MAIL ["mail/inbox"] 0.9 true))
    = [HOME_SCREEN; BATTLE; SHOP; LOADING; ERROR; MAIL].
Proof.
  intros self.
  destruct (register_state_definition_order self SHOP ["shop/banner"] 0.9 true)
    as (_ & _ & _ & Hkeep & _ & _).
  destruct (register_state_definition_order self MAIL ["mail/inbox"] 0.9 true)
    as (_ & _ & _ & _ & Hlast & _).
  split.
  - rewrite Hkeep; [reflexivity|]. simpl. do 2 right. left.
  - rewrite Hlast; [reflexivity|]. simpl.
    rewrite !not_elem_of_cons. split_and!; try discriminate. apply not_elem_of_nil.
Defined.

Lemma dict_keys_set_elem_of {K V} `{EqDecision K} (k k0 : K) (v : V) (d : list (K * V)) :
  k0 ∈ Dict.keys (Dict.set k v d) → k0 = k ∨ k0 ∈ Dict.keys d.
Proof.
  destruct (decide (k ∈ Dict.keys d)) as [Hk|Hk].
  - rewrite dict_keys_set_in by done. by right.
  - rewrite dict_keys_set_notin by done.
    intros [?| ->%list_elem_of_singleton]%elem_of_app; [by right|by left].
Qed.

Lemma score_states_keys matchTemplate tm screen_image defs acc sc :
  score_states matchTemplate tm screen_image defs acc = Return sc →
  ∀ k, k ∈ Dict.keys sc → k ∈ Dict.keys acc ∨ k ∈ Dict.keys defs.
Proof.
  revert acc. induction defs as [|[state rule] defs IH]; intros acc; simpl.
  - intros [= <-] k Hk. by left.
  - destruct (count_matches _ _ _ _ _ _ _) as [[matched total]|]; [|done].
    intros Hsc k Hk. destruct (IH _ Hsc k Hk) as [Hin|Hin].
    + destruct (state_score rule matched total).
      * apply dict_keys_set_elem_of in Hin as [->|Hin]; [right; by left|by left].
      * by left.
    + right. by right.
Qed.

Lemma max_by_confidence_in first others :
  max_by_confidence first others ∈ first :: others.
Proof.
  destruct (max_by_confidence_spec first others) as (l1 & l2 & -> & _).
  apply elem_of_app. right. by left.
Qed.

(** X13. [detect_state] never reports a state that has no rule: whatever it
    returns is [UNKNOWN] or a state with a registered rule.  With the rules
    installed at construction it therefore never reports [INVENTORY], [MAIL],
    [LOGIN] or [POPUP]. *)
Theorem detect_state_registered
    (matchTemplate : Image → Image → MatchMethod → option Surface)
    (self : StateDetector) (screen_image : Image) (S : GameState) :
  detect_state matchTemplate self screen_image = Return S →
  (S = UNKNOWN ∨ S ∈ Dict.keys (state_definitions self)) ∧
  (state_definitions self = default_state_definitions →
   S ∈ [UNKNOWN; HOME_SCREEN; BATTLE; SHOP; LOADING; ERROR]).
Proof.
  unfold detect_state.
  destruct (score_states _ _ _ _ _) as [sc|] eqn:Hsc; [|done].
  assert (S = UNKNOWN ∨ S ∈ Dict.keys (state_definitions self) →
          state_definitions self = default_state_definitions →
          S ∈ [UNKNOWN; HOME_SCREEN; BATTLE; SHOP; LOADING; ERROR]) as Hdef.
  { intros [->|Hin] Hd; [by left|]. rewrite Hd in Hin. by right. }
  destruct sc as [|first others].
  - intros [= <-]. split; [by left|]. apply Hdef. by left.
  - intros [= <-].
    assert ((max_by_confidence first others).1 ∈ Dict.keys (state_definitions self)) as Hin.
    { destruct (score_states_keys _ _ _ _ _ _ Hsc (max_by_confidence first others).1)
        as [Hk|Hk]; [|by apply elem_of_nil in Hk|done].
      apply list_elem_of_fmap. eexists. split; [done|]. apply max_by_confidence_in. }
    split; [by right|]. apply Hdef. by right.
Qed.

Lemma detect_state_registered_witness :
  let tile := solid 2 2 (10, 20, 30)%Z in
  let self := StateDetector_init (mkTemplateMatcher {["shop/shop_title" := tile]}) in
  SHOP ∈ Dict.keys (state_definitions self).
Proof.
  intros tile self.
  destruct (detect_state_registered (cv2_const 0.9) self tile SHOP) as [[Hu|Hin] _].
  - vm_compute. reflexivity.
  - discriminate.
  - exact Hin.
Defined.

Lemma count_matches_none matchTemplate tm screen_image threshold names k t :
  Forall (fun name =>
            templates tm !! name = None ∨
            ∃ template, templates tm !! name = Some template ∧
              ((shape template).1 > (shape screen_image).1 ∨
               (shape template).2 > (shape screen_image).2)) names →
  count_matches matchTemplate tm screen_image threshold names k t = Return (k, t).
Proof.
  induction 1 as [|name rest Hname _ IH]; simpl; [done|].
  unfold find_template.
  destruct Hname as [Hn|(template & Hn & Hlarge)]; rewrite Hn; [done|].
  rewrite bool_decide_eq_true_2 by lia. done.
Qed.

(** X14. When every template a rule requires is either not loaded or larger
    than the frame, [detect_state] returns [UNKNOWN] without ever calling
    [cv2.matchTemplate] (so it cannot raise); in particular a detector whose
    template store is empty always reports [UNKNOWN]. *)
Theorem detect_state_nothing_to_match
    (matchTemplate : Image → Image → MatchMethod → option Surface)
    (self : StateDetector) (screen_image : Image) :
  (∀ s rule name,
     (s, rule) ∈ state_definitions self → name ∈ required_templates rule →
     templates (template_matcher self) !! name = None ∨
     ∃ template, templates (template_matcher self) !! name = Some template ∧
       ((shape template).1 > (shape screen_image).1 ∨
        (shape template).2 > (shape screen_image).2)) →
  detect_state matchTemplate self screen_image = Return UNKNOWN.
Proof.
  intros Hnone. unfold detect_state.
  assert (∀ defs, (∀ e, e ∈ defs → e ∈ state_definitions self) →
            score_states matchTemplate (template_matcher self) screen_image defs []
            = Return []) as Hscore.
  { induction defs as [|[state rule] defs IH]; intros Hsub; simpl; [done|].
    rewrite count_matches_none.
    - simpl. apply IH. intros e He. apply Hsub. by right.
    - apply Forall_forall. intros name Hname.
      apply (Hnone state rule name); [|done]. apply Hsub. by left. }
  by rewrite Hscore.
Qed.

Lemma detect_state_nothing_to_match_witness :
  detect_state (fun _ _ _ => None) (StateDetector_init (mkTemplateMatcher ∅))
               (solid 4 4 (0, 0, 0)%Z) = Return UNKNOWN.
Proof.
  apply detect_state_nothing_to_match. intros s rule name _ _. left. reflexivity.
Defined.

(** ** The executor *)

(** X15. [_execute_action] never raises, whatever the action string, the
    matcher and the random delays do: it captures exactly one frame, leaves
    the manager and the detector alone, only appends to the events and does
    not turn the clock back.  It returns [True] exactly when it clicked:
    then the action starts with ["click_"], the template named by the rest
    of the string was found in that frame, and the events added are the
    delay, the mouse move to the centre of the match, the second delay and
    the click there, the clock having advanced by the two delays.  When it
    returns [False] it has not clicked, and the last event is a logged
    warning or error. *)
Theorem execute_action_never_raises
    (matchTemplate : Image → Image → MatchMethod → option Surface)
    (uniform : nat → Q → Q → Q) (screen : nat → Image)
    (action_name : string) (app : NikkeAutomation) :
  ∃ b app' new,
    Main._execute_action matchTemplate uniform screen action_name app
      = (app', Return b) ∧
    state_manager app' = state_manager app ∧
    state_detector app' = state_detector app ∧
    captured (world app') = S (captured (world app)) ∧
    (clock (world app) <= clock (world app'))%Q ∧
    events (world app') = events (world app) ++ new ∧
    if b then
      String.prefix "click_" action_name = true ∧
      ∃ m, action_match matchTemplate app (screen (captured (world app))) action_name
             = Return (Some m) ∧
           new = click_events uniform app m ∧
           (0 <= delay_before_move uniform app)%Q ∧
           (0 <= delay_before_click uniform app)%Q ∧
           clock (world app')
           = (clock (world app) + delay_before_move uniform app
              + delay_before_click uniform app)%Q
    else
      Forall (fun e => ¬ is_click e) new ∧ ∃ e, last new = Some e ∧ is_log e.
Proof. apply execute_action_outcome. Qed.

Lemma grows_refl app : grows app app.
Proof. by split_and!. Qed.

Lemma grows_trans a b c : grows a b → grows b c → grows a c.
Proof.
  intros (H1 & H2 & H3 & H4) (G1 & G2 & G3 & G4). split_and!.
  - by rewrite G1.
  - by rewrite G2.
  - lia.
  - by etrans.
Qed.

Lemma preserves_ret {A} (a : A) : preserves (Main.ret a).
Proof. intros app. apply grows_refl. Qed.

Lemma preserves_bind {A B} (m : Main.M A) (k : A → Main.M B) :
  preserves m → (∀ a, preserves (k a)) → preserves (Main.bind m k).
Proof.
  intros Hm Hk app. unfold Main.bind. specialize (Hm app).
  destruct (m app) as [app1 [a|]]; simpl in *; [|done].
  eapply grows_trans; [exact Hm|apply Hk].
Qed.

Lemma preserves_try_except {A} (body handler : Main.M A) :
  preserves body → preserves handler → preserves (Main.try_except body handler).
Proof.
  intros Hb Hh app. unfold Main.try_except. specialize (Hb app).
  destruct (body app) as [app1 [a|]]; simpl in *; [done|].
  eapply grows_trans; [exact Hb|apply Hh].
Qed.

Lemma preserves_emit e : preserves (Main.emit e).
Proof.
  intros app. unfold Main.emit, Main.with_world, grows. simpl.
  split_and!; [done|done|lia|by apply prefix_app_r].
Qed.

Lemma preserves_sleep d : preserves (Main.sleep d).
Proof.
  unfold Main.sleep. destruct (Qltb d 0); [intros app; apply grows_refl|].
  apply preserves_bind; [|intros _; apply preserves_emit].
  intros app. unfold grows. simpl. by split_and!.
Qed.

Lemma preserves_capture screen : preserves (Main.capture screen).
Proof. intros app. unfold grows. simpl. split_and!; [done|done|lia|done]. Qed.

Lemma preserves_lift {A} (f : NikkeAutomation → outcome A) :
  preserves (fun app => Main.lift (f app) app).
Proof. intros app. apply grows_refl. Qed.

Lemma preserves_update_state matchTemplate screen :
  preserves (Main.update_state matchTemplate screen).
Proof.
  unfold Main.update_state.
  apply preserves_bind; [apply preserves_capture|]. intros img.
  apply preserves_bind; [apply preserves_lift|]. intros d.
  apply preserves_bind; [|intros _; apply preserves_ret].
  intros app. unfold grows. simpl. split_and!; [done| |lia|done].
  apply manager_update_state_transitions.
Qed.

Lemma preserves_execute_action matchTemplate uniform screen action_name :
  preserves (Main._execute_action matchTemplate uniform screen action_name).
Proof.
  intros app.
  destruct (execute_action_outcome matchTemplate uniform screen action_name app)
    as (b & app' & new & -> & Hm & Hd & Hc & _ & He & _). unfold grows. simpl.
  split_and!; [done|by rewrite Hm|lia|rewrite He; by apply prefix_app_r].
Qed.

Lemma preserves_run_actions matchTemplate uniform screen actions :
  preserves (Main.run_actions matchTemplate uniform screen actions).
Proof.
  induction actions as [|a actions IH]; simpl; [apply preserves_ret|].
  apply preserves_bind; [apply preserves_execute_action|by intros _].
Qed.

Lemma preserves_hop matchTemplate uniform screen transition :
  preserves (Main.hop matchTemplate uniform screen transition).
Proof.
  unfold Main.hop. apply preserves_bind; [apply preserves_run_actions|]. intros _.
  apply preserves_bind; [apply preserves_sleep|]. intros _.
  apply preserves_update_state.
Qed.

Lemma preserves_walk matchTemplate uniform screen path :
  preserves (Main.walk matchTemplate uniform screen path).
Proof.
  induction path as [|t path IH]; simpl; [apply preserves_ret|].
  apply preserves_bind; [apply preserves_hop|]. intros s.
  case_decide; [|done].
  apply preserves_bind; [apply preserves_emit|intros _; apply preserves_ret].
Qed.

Lemma capture_first screen {A} (k : Image → Main.M A) :
  (∀ img, preserves (k img)) →
  ∀ app, captured (world app)
         < captured (world (Main.bind (Main.capture screen) k app).1).
Proof.
  intros Hk app. unfold Main.bind, Main.capture.
  match goal with |- context [k ?img ?app1] =>
    destruct (Hk img app1) as (_ & _ & Hc & _) end.
  simpl in Hc. lia.
Qed.

Lemma bind_first_strict {A B} (m : Main.M A) (k : A → Main.M B) :
  (∀ app, captured (world app) < captured (world (m app).1)) →
  (∀ a, preserves (k a)) →
  ∀ app, captured (world app) < captured (world (Main.bind m k app).1).
Proof.
  intros Hm Hk app. unfold Main.bind. specialize (Hm app).
  destruct (m app) as [app1 [a|]]; simpl in *; [|done].
  destruct (Hk a app1) as (_ & _ & Hc & _). lia.
Qed.

Lemma update_state_captures matchTemplate screen app :
  captured (world app)
  < captured (world (Main.update_state matchTemplate screen app).1).
Proof.
  unfold Main.update_state. apply capture_first. intros img.
  apply preserves_bind; [apply preserves_lift|]. intros d.
  apply preserves_bind; [|intros _; apply preserves_ret].
  intros a. unfold grows. simpl. split_and!; [done| |lia|done].
  apply manager_update_state_transitions.
Qed.

(** X16. Whatever [navigate_to] returns or raises, it leaves the transition
    graph and the detector (rules and template store) exactly as they were,
    captures at least one frame and only appends to the events: a failed
    attempt corrupts nothing a later attempt relies on. *)
Theorem navigate_to_keeps_graph
    (matchTemplate : Image → Image → MatchMethod → option Surface)
    (uniform : nat → Q → Q → Q) (screen : nat → Image) (target : GameState) (app : NikkeAutomation) :
  let app' := (Main.navigate_to matchTemplate uniform screen target app).1 in
  state_detector app' = state_detector app ∧
  transitions (state_manager app') = transitions (state_manager app) ∧
  captured (world app) < captured (world app') ∧
  events (world app) `prefix_of` events (world app').
Proof.
  intros app'. subst app'.
  assert (∀ current, preserves (fun a =>
            (if decide (current = target) then Main.ret true
             else Main.bind
                    (fun app0 => (app0, Return (find_path (state_manager app0) target)))
                    (fun path =>
                       match path with
                       | Some (transition :: rest) =>
                           Main.walk matchTemplate uniform screen (transition :: rest)
                       | _ =>
                           Main.bind
                             (Main.log ERROR_LEVEL
                                ("No path found from " ++ GameState_str current
                                 ++ " to " ++ GameState_str target))
                             (fun _ => Main.ret false)
                       end)) a)) as Hk.
  { intros current. case_decide; [apply preserves_ret|].
    apply preserves_bind; [intros a; apply grows_refl|]. intros [[|t rest]|].
    - apply preserves_bind; [apply preserves_emit|intros _; apply preserves_ret].
    - apply preserves_walk.
    - apply preserves_bind; [apply preserves_emit|intros _; apply preserves_ret]. }
  assert (preserves (Main.navigate_to matchTemplate uniform screen target)) as Hp
    by (apply preserves_bind; [apply preserves_update_state|exact Hk]).
  destruct (Hp app) as (Hd & Ht & _ & He). split_and!; [done|done| |done].
  apply (bind_first_strict _ _ (update_state_captures matchTemplate screen) Hk).
Qed.

Lemma walk_true matchTemplate uniform screen path app0 app' tr :
  Main.walk matchTemplate uniform screen path app0 = (app', Return true) →
  last path = Some tr →
  current_state (state_manager app') = to_state tr.
Proof.
  revert app0. induction path as [|t rest IH]; intros app0; [done|].
  simpl. unfold Main.bind at 1.
  destruct (Main.hop matchTemplate uniform screen t app0) as [a [s|]] eqn:Hhop; [|done].
  case_decide as Hs; [done|].
  destruct rest as [|t' rest'].
  - simpl. intros [= <-] [= <-]. rewrite <- Hs. by eapply hop_current.
  - intros Hw Hl. by eapply IH.
Qed.

Lemma route_last items a b p tr :
  route items a b p → last p = Some tr → ∃ w, ((w, b), tr) ∈ items.
Proof.
  inversion 1 as [|? w ? tr0 p' Hr Hin Hp]; subst; [done|].
  rewrite last_snoc. intros [= <-]. by exists w.
Qed.

(** X17. A successful navigation ends at the target: when the graph's
    entries carry their own pairs (as every graph built by
    [register_transition] does) and [navigate_to] returns [True], the
    manager's current state afterwards is the target. *)
Theorem navigate_to_success
    (matchTemplate : Image → Image → MatchMethod → option Surface)
    (uniform : nat → Q → Q → Q) (screen : nat → Image) (target : GameState)
    (app app' : NikkeAutomation) :
  consistent (transitions (state_manager app)) →
  Main.navigate_to matchTemplate uniform screen target app = (app', Return true) →
  current_state (state_manager app') = target.
Proof.
  intros Hcons. unfold Main.navigate_to, Main.bind at 1.
  destruct (Main.update_state matchTemplate screen app) as [app0 [current|]] eqn:Hu;
    [|done].
  pose proof (update_state_current _ _ _ _ _ Hu) as Hcur0.
  destruct (preserves_update_state matchTemplate screen app) as (_ & Htr & _).
  rewrite Hu in Htr. simpl in Htr.
  case_decide as Hc.
  - intros [= <-]. by rewrite Hcur0.
  - unfold Main.bind at 1.
    destruct (find_path (state_manager app0) target) as [[|t rest]|] eqn:Hp; [done| |done].
    intros Hw. apply find_path_sound in Hp as [Hroute _].
    destruct (proj2 (last_is_Some (t :: rest))) as [tr Hl]; [done|].
    destruct (route_last _ _ _ _ _ Hroute Hl) as [w Hin].
    rewrite Htr in Hin. destruct (Hcons _ _ _ Hin) as [_ <-].
    by eapply walk_true.
Qed.

Lemma navigate_to_success_witness :
  let tile := solid 3 3 (10, 20, 30)%Z in
  let go := mkStateTransition UNKNOWN SHOP ["click_shop/shop_title"] 2%Q in
  let app := mkNikkeAutomation
               (at_state UNKNOWN [((UNKNOWN, SHOP), go)])
               (StateDetector_init (mkTemplateMatcher {["shop/shop_title" := tile]}))
               InputController_init
               (mkWorld 0 0 0%Q []) in
  let uniform := fun (_ : nat) (a _ : Q) => a in
  let screen := fun n : nat => if n =? 0 then solid 2 2 (0, 0, 0)%Z
                               else solid 4 4 (10, 20, 30)%Z in
  let r := Main.navigate_to (cv2_const 0.9) uniform screen SHOP app in
  r.2 = Return true ∧ current_state (state_manager r.1) = SHOP ∧
  events (world r.1)
  = [Sleep (5 # 100); MoveTo 1 1 (1 # 10); Sleep (5 # 100); Click 1 1; Sleep 2].
Proof.
  intros tile go app uniform screen r.
  assert (r = (r.1, Return true)) as Hr by (vm_compute; reflexivity).
  split_and!.
  - vm_compute. reflexivity.
  - apply (navigate_to_success (cv2_const 0.9) uniform screen SHOP app r.1); [|exact Hr].
    intros a b tr Hin. apply list_elem_of_singleton in Hin.
    injection Hin as -> -> ->. split; reflexivity.
  - vm_compute. reflexivity.
Defined.

(** X18. When no chain of registered transitions leads from the state just
    detected to the target, [navigate_to] returns [False] after that one
    detection: it logs "No path found" and performs no click, no sleep and no
    further capture. *)
Theorem navigate_to_unreachable
    (matchTemplate : Image → Image → MatchMethod → option Surface)
    (uniform : nat → Q → Q → Q) (screen : nat → Image) (target : GameState)
    (app app0 : NikkeAutomation) (current : GameState) :
  Main.update_state matchTemplate screen app = (app0, Return current) →
  (∀ q, ¬ route (transitions (state_manager app0)) current target q) →
  Main.navigate_to matchTemplate uniform screen target app
  = ((Main.log ERROR_LEVEL
        ("No path found from " ++ GameState_str current
         ++ " to " ++ GameState_str target) app0).1,
     Return false).
Proof.
  intros Hu Hno. pose proof (update_state_current _ _ _ _ _ Hu) as Hcur.
  unfold Main.navigate_to, Main.bind at 1. rewrite Hu.
  rewrite decide_False by (intros ->; apply (Hno []); constructor).
  unfold Main.bind at 1.
  destruct (find_path (state_manager app0) target) as [p|] eqn:Hp.
  - apply find_path_sound in Hp as [Hroute _]. rewrite Hcur in Hroute.
    by destruct (Hno p).
  - reflexivity.
Qed.

Lemma navigate_to_unreachable_witness :
  let app := mkNikkeAutomation StateManager_init
               (StateDetector_init (mkTemplateMatcher ∅))
               InputController_init (mkWorld 0 0 0%Q []) in
  let uniform := fun (_ : nat) (a _ : Q) => a in
  let screen := fun _ : nat => solid 4 4 (0, 0, 0)%Z in
  let r := Main.navigate_to (cv2_const 1) uniform screen BATTLE app in
  r.2 = Return false ∧
  events (world r.1)
  = [Log ERROR_LEVEL "No path found from GameState.UNKNOWN to GameState.BATTLE"] ∧
  captured (world r.1) = 1.
Proof.
  intros app uniform screen r.
  pose (app0 := (Main.update_state (cv2_const 1) screen app).1).
  assert (r = ((Main.log ERROR_LEVEL
                  ("No path found from " ++ GameState_str UNKNOWN
                   ++ " to " ++ GameState_str BATTLE) app0).1, Return false)) as Hr.
  { apply (navigate_to_unreachable (cv2_const 1) uniform screen BATTLE app app0 UNKNOWN).
    - vm_compute. reflexivity.
    - intros q Hq.
      assert (find_path (state_manager app0) BATTLE = None) as Hnone
        by (vm_compute; reflexivity).
      by apply (find_path_none _ _ Hnone q). }
  rewrite Hr. split_and!; reflexivity.
Defined.

Lemma update_state_world matchTemplate screen app :
  world (Main.update_state matchTemplate screen app).1
  = {| captured := S (captured (world app)); drawn := drawn (world app);
       clock := clock (world app); events := events (world app) |}.
Proof.
  unfold Main.update_state, Main.bind, Main.capture, Main.lift, Main.ret. simpl.
  by destruct (detect_state _ _ _).
Qed.

